(** * Crypto-Quant-Analytics: a shallow embedding of the tick pipeline

    The development follows the four stages of the repository:
    - [Collector]  : src/backend/collector.py  (class BinanceCollector)
    - [Resampler]  : src/backend/resampler.py  (class DataResampler)
    - [Analytics]  : src/analytics/engine.py   (class AnalyticsEngine)
    - [Alerts]     : src/utils/alert_manager.py (classes Alert, AlertManager)

    Conventions of the embedding.
    - The value of a finite Python float is a rational [Qc].  Where a
      result depends on how floats round, the rounding is there: [b64]
      rounds a rational to the nearest binary64 number, the sums that
      pandas computes over a column are parameters (their result depends
      on the order of summation), and the regression of
      [compute_hedge_ratio] runs on the kernel's binary64 floats.  The
      rolling statistics and the volume profile are stated over exact
      rationals; their statements say so.
    - Where the code can produce the IEEE special values (a division by a
      zero standard deviation) the result type is [float64], which adds
      NaN and the two infinities to the rationals.
    - A pandas timestamp is an integer number of microseconds ([Z]).
    - Methods that mutate [self] are functions from the old object state to
      the new one, paired with what the method returns.
    - Calls into the interpreter or into third-party numerics whose source
      is not part of the repository ([eval], [str.lower], [float] on a
      string, [datetime.fromtimestamp], numpy's [lstsq], statsmodels'
      [adfuller]) are parameters of the sections that use them. *)

From Stdlib Require Import Floats.
From Stdlib Require Import ZArith QArith Qabs Qcanon Qround Lia Ascii String.
From stdpp Require Import base option list strings gmap numbers sorting.

Local Open Scope Z_scope.

(** ** Python values that travel through dictionaries *)

Inductive pyval :=
  | PyNone
  | PyBool (b : bool)
  | PyInt (z : Z)
  | PyFloat (q : Qc)
  | PyStr (s : string)
  | PyOther.   (* a nested list or dict: never a number, never a string *)

(** How a call ends: with a returned value or with a raised exception. *)
Inductive py_result :=
  | PyReturn (v : pyval)
  | PyRaise (exn : string).

(** The same for a call that returns a value of the embedding. *)
Inductive outcome (A : Type) :=
  | Returns (a : A)
  | Raises (exn : string).
Arguments Returns {A} a.
Arguments Raises {A} exn.

(** ** Binary64 rounding *)

(** [2^z] as a rational, for any integer exponent. *)
Definition qc_pow2 (z : Z) : Qc :=
  if 0 <=? z then Qc_of_Z (2 ^ z) else (/ Qc_of_Z (2 ^ (- z)))%Qc.

(** Rounding to the nearest integer, ties to the even one. *)
Definition round_half_even (x : Qc) : Z :=
  let f := Qfloor x in
  match ((x - Qc_of_Z f) ?= Q2Qc (1 # 2))%Qc with
  | Lt => f
  | Gt => f + 1
  | Eq => if Z.even f then f else f + 1
  end.

(** The binary64 number nearest to a rational, ties to even: 53 bits of
    mantissa down to the exponent -1022 and fixed steps of [2^-1074]
    below.  It is what a float operation returns for the exact result of
    its operands, as long as that is within the range of a double. *)
Definition b64 (q : Qc) : Qc :=
  if Qeq_bool q 0 then 0%Qc
  else
    let a := Qabs q in
    let e0 := Z.log2 (Qnum a) - Z.log2 (Zpos (Qden a)) in
    let e := if Qle_bool (qc_pow2 e0) a then e0 else e0 - 1 in
    let step := qc_pow2 (Z.max e (-1022) - 52) in
    let m := round_half_even (Q2Qc a / step)%Qc in
    let r := (Qc_of_Z m * step)%Qc in
    if Qle_bool 0 q then r else (- r)%Qc.

(** From this magnitude on a number rounds beyond the largest double:
    converting or dividing an [int] raises OverflowError. *)
Definition double_overflow (q : Qc) : bool :=
  Qle_bool (inject_Z (2 ^ 1024 - 2 ^ 970)) (Qabs q).
(* ===================================================================== *)
(** ** Alerts: src/utils/alert_manager.py *)
(* ===================================================================== *)

Module Alerts.

(** The evaluation context, [Dict[str, Any]] restricted to numbers. *)
Abbreviation Context := (gmap string Qc).

(** What [callback(self, data)] can do to its caller: return or raise.
    Callbacks are observers; they do not write to the manager. *)
Inductive cb_outcome := CbReturn | CbRaise.

(** The data attributes of an [Alert], as a callback reads them. *)
Record AlertView := {
  v_condition : string;
  v_triggered : bool;
  v_triggered_at : option Z;
  v_trigger_count : nat
}.

(** class Alert.  [triggered_at] is [None] or the clock reading taken by
    [trigger]. *)
Record Alert := {
  condition : string;
  callback : option (AlertView → Context → cb_outcome);
  triggered : bool;
  triggered_at : option Z;
  trigger_count : nat
}.

Definition view (a : Alert) : AlertView :=
  {| v_condition := condition a; v_triggered := triggered a;
     v_triggered_at := triggered_at a; v_trigger_count := trigger_count a |}.

(** One entry of [alert_history]. *)
Record AlertEvent := {
  ev_condition : string;
  ev_triggered_at : option Z;
  ev_trigger_count : nat;
  ev_context : Context
}.

(** class AlertManager. *)
Record AlertManager := {
  alerts : list Alert;
  alert_history : list AlertEvent
}.

(** Alert.__init__ *)
Definition new_alert (c : string)
    (cb : option (AlertView → Context → cb_outcome)) : Alert :=
  {| condition := c; callback := cb; triggered := false;
     triggered_at := None; trigger_count := 0 |}.

(** AlertManager.__init__ *)
Definition new_manager : AlertManager :=
  {| alerts := []; alert_history := [] |}.

(** [l[-n:]] guarded by [len(l) > n], as [_record_alert] writes it. *)
Definition keep_last {A} (n : nat) (l : list A) : list A :=
  if decide (n < length l)%nat then drop (length l - n) l else l.

Definition history_cap : nat := 1000.

(** The three assignments of [Alert.trigger] at clock reading [now]. *)
Definition fired (now : Z) (a : Alert) : Alert :=
  {| condition := condition a; callback := callback a; triggered := true;
     triggered_at := Some now; trigger_count := S (trigger_count a) |}.

(** The dictionary that [_record_alert] appends for an alert. *)
Definition event_of (a : Alert) (data : Context) : AlertEvent :=
  {| ev_condition := condition a; ev_triggered_at := triggered_at a;
     ev_trigger_count := trigger_count a; ev_context := data |}.

(** The rule has no callback, or its callback returns when it is called
    on the rule as fired at [now]. *)
Definition callback_returns (ctx : Context) (now : Z) (a : Alert) : bool :=
  match callback a with
  | None => true
  | Some cb =>
      match cb (view (fired now a)) ctx with
      | CbReturn => true
      | CbRaise => false
      end
  end.

(** External reset of a rule: the owner of the Alert object assigns
    [triggered = False]. *)
Definition reset_rule (a : Alert) : Alert :=
  {| condition := condition a; callback := callback a; triggered := false;
     triggered_at := triggered_at a; trigger_count := trigger_count a |}.

Section WithEval.
(** [eval(condition, {"__builtins__": {}, **context})] followed by
    [bool(...)]: [None] when the evaluation raises. *)
Variable py_eval : string → Context → option bool.

(** Alert.evaluate: an exception is logged and read as False. *)
Definition evaluate (a : Alert) (ctx : Context) : bool :=
  match py_eval (condition a) ctx with
  | Some b => b
  | None => false
  end.

(** Alert.trigger: the assignments happen before the callback runs, so
    they persist when the callback raises. *)
Definition trigger (a : Alert) (data : Context) (now : Z)
    : Alert * cb_outcome :=
  let a' := fired now a in
  match callback a' with
  | Some cb => (a', cb (view a') data)
  | None => (a', CbReturn)
  end.

(** AlertManager._record_alert *)
Definition _record_alert (hist : list AlertEvent) (a : Alert)
    (data : Context) : list AlertEvent :=
  keep_last history_cap (hist ++ [event_of a data]).

(** The body of the [for] loop of evaluate_alerts for one alert: the [try]
    block, whose [except] swallows the exception of a raising callback
    before [_record_alert] is reached. *)
Definition evaluate_one (ctx : Context) (now : Z) (a : Alert)
    (hist : list AlertEvent) : Alert * list AlertEvent :=
  if evaluate a ctx then
    if negb (triggered a) then
      match trigger a ctx now with
      | (a', CbReturn) => (a', _record_alert hist a' ctx)
      | (a', CbRaise) => (a', hist)
      end
    else (a, hist)
  else (a, hist).

(** The loop itself.  [clock i] is what [datetime.now()] reads when the
    alert at position [i] triggers. *)
Fixpoint evaluate_loop (ctx : Context) (clock : nat → Z) (i : nat)
    (als : list Alert) (hist : list AlertEvent)
    : list Alert * list AlertEvent :=
  match als with
  | [] => ([], hist)
  | a :: rest =>
      let '(a', hist') := evaluate_one ctx (clock i) a hist in
      let '(rest', hist'') := evaluate_loop ctx clock (S i) rest hist' in
      (a' :: rest', hist'')
  end.

(** AlertManager.evaluate_alerts *)
Definition evaluate_alerts (m : AlertManager) (ctx : Context)
    (clock : nat → Z) : AlertManager :=
  let '(als, hist) :=
    evaluate_loop ctx clock 0 (alerts m) (alert_history m) in
  {| alerts := als; alert_history := hist |}.

(** A run of refresh cycles, one [evaluate_alerts] per element. *)
Fixpoint evaluate_many (m : AlertManager)
    (calls : list (Context * (nat → Z))) : AlertManager :=
  match calls with
  | [] => m
  | (ctx, clock) :: rest => evaluate_many (evaluate_alerts m ctx clock) rest
  end.

(** *** What one refresh cycle adds to the history

    The events a single rule contributes to a cycle, and the events of all
    rules from position [i] on, in the order of the loop. *)
Definition rule_events (ctx : Context) (now : Z) (a : Alert)
    : list AlertEvent :=
  if evaluate a ctx && negb (triggered a) && callback_returns ctx now a
  then [event_of (fired now a) ctx]
  else [].

Fixpoint new_events (ctx : Context) (clock : nat → Z) (i : nat)
    (als : list Alert) : list AlertEvent :=
  match als with
  | [] => []
  | a :: rest => rule_events ctx (clock i) a ++ new_events ctx clock (S i) rest
  end.
End WithEval.

(** Appending events one at a time, each followed by the cap. *)
Definition record_all (hist evs : list AlertEvent) : list AlertEvent :=
  foldl (λ h e, keep_last history_cap (h ++ [e])) hist evs.

(** AlertManager.add_alert *)
Definition add_alert (m : AlertManager) (c : string)
    (cb : option (AlertView → Context → cb_outcome))
    : AlertManager * Alert :=
  let a := new_alert c cb in
  ({| alerts := alerts m ++ [a]; alert_history := alert_history m |}, a).

(** AlertManager.remove_alert: the list comprehension
    [[a for a in self.alerts if a.condition != condition]]. *)
Fixpoint remove_matching (c : string) (als : list Alert) : list Alert :=
  match als with
  | [] => []
  | a :: rest =>
      if String.eqb (condition a) c
      then remove_matching c rest
      else a :: remove_matching c rest
  end.

Definition remove_alert (m : AlertManager) (c : string) : AlertManager :=
  {| alerts := remove_matching c (alerts m);
     alert_history := alert_history m |}.

(** AlertManager.get_alerts *)
Definition get_alerts (m : AlertManager) : list AlertView :=
  view <$> alerts m.

(** [eval] on the condition ["x > 2"]: the comparison when the context
    binds [x], NameError otherwise.  Used to run the engine on examples. *)
Definition eval_x_gt_2 (cond : string) (ctx : Context) : option bool :=
  if String.eqb cond "x > 2" then
    match ctx !! "x" return option bool with
    | Some v => Some (negb (Qle_bool (this v) (inject_Z 2)))
    | None => None
    end
  else None.

(** [l[start:]]: a negative start counts from the end, and both ends are
    clamped, as Python slices do. *)
Definition slice_from {A} (start : Z) (l : list A) : list A :=
  let n := Z.of_nat (length l) in
  drop (Z.to_nat (if start <? 0 then Z.max 0 (n + start) else Z.min start n)) l.

(** AlertManager.get_alert_history: [self.alert_history[-limit:]]. *)
Definition get_alert_history (m : AlertManager) (limit : Z)
    : list AlertEvent :=
  slice_from (- limit) (alert_history m).

End Alerts.

(* ===================================================================== *)
(** ** Collector: src/backend/collector.py *)
(* ===================================================================== *)

Module Collector.

(** A normalized tick: the dictionary built by [_normalize_tick].  The
    [timestamp] is the naive datetime behind the ISO string, counted in
    microseconds; the last three fields hold whatever [dict.get] found. *)
Record Tick := {
  symbol : string;
  timestamp : Z;
  price : Qc;
  size : Qc;
  event_time : pyval;
  trade_id : pyval;
  is_buyer_maker : pyval
}.

(** Every call of [_normalize_tick] builds a new dictionary.  A buffered
    tick is that object: its reference paired with its contents. *)
Definition TickObj : Type := nat * Tick.

(** What arrives on the socket, as [json.loads] sees it. *)
Inductive feed_message :=
  | BadJson                              (* json.loads raises *)
  | JsonValue (v : pyval)                (* valid JSON, not an object *)
  | JsonDict (d : gmap string pyval).    (* a JSON object *)

(** The attributes of a BinanceCollector ([buffer_lock] holds no data).
    [on_message_callback] is [None] or a handle on the consumer;
    a connection is identified by the URL it was opened on. *)
Record BinanceCollector := {
  symbols : list string;
  on_message_callback : option nat;
  running : bool;
  ws_connections : list string;
  message_buffer : list TickObj
}.

(** [d.get(k, default)] *)
Definition dict_get (d : gmap string pyval) (k : string) (default : pyval)
    : pyval :=
  match d !! k with
  | Some v => v
  | None => default
  end.

Section WithInterpreter.
(** [s.lower()] of Python's [str]: it follows the Unicode case mappings. *)
Variable str_lower : string → string.
(** [float(s)] for a string [s]: [None] stands for ValueError.  The value
    is the double that [float] returns (the strings it reads as NaN or as
    an infinity are not among the prices of a [Tick]). *)
Variable float_of_str : string → option Qc.
(** [datetime.fromtimestamp(x)], [x] in seconds, read back in microseconds
    of naive local time: [None] stands for the range errors it raises. *)
Variable fromtimestamp : Qc → option Z.

(** BinanceCollector.__init__ *)
Definition init (syms : list string) (cb : option nat) : BinanceCollector :=
  {| symbols := str_lower <$> syms; on_message_callback := cb;
     running := false; ws_connections := []; message_buffer := [] |}.

(** The value of a number ([bool] is a subclass of [int]); an operand of
    another type makes [v / 1000] raise TypeError. *)
Definition py_number (v : pyval) : option Qc :=
  match v with
  | PyInt z => Some (Qc_of_Z z)
  | PyFloat q => Some q
  | PyBool b => Some (if b then 1%Qc else 0%Qc)
  | PyNone | PyStr _ | PyOther => None
  end.

(** [v / 1000]: the quotient rounded to a double.  For an [int] whose
    quotient is beyond the doubles, true division raises OverflowError. *)
Definition py_div_1000 (v : pyval) : option Qc :=
  x ← py_number v;
  let r := (x / Qc_of_Z 1000)%Qc in
  match v with
  | PyInt _ => if double_overflow r then None else Some (b64 r)
  | _ => Some (b64 r)
  end.

(** [float(v)]: a [float] is returned as it is, an [int] is rounded to a
    double (OverflowError when it is beyond the doubles), a string is
    parsed, [None] and containers raise TypeError. *)
Definition py_float (v : pyval) : option Qc :=
  match v with
  | PyStr s => float_of_str s
  | PyInt z =>
      if double_overflow (Qc_of_Z z) then None else Some (b64 (Qc_of_Z z))
  | _ => py_number v
  end.

(** [v.lower()]: only strings have the method. *)
Definition py_lower (v : pyval) : option string :=
  match v with
  | PyStr s => Some (str_lower s)
  | _ => None
  end.

(** BinanceCollector._normalize_tick.  [now_ms] is [time.time() * 1000].
    Every exception raised inside the [try] ends in [return None]. *)
Definition _normalize_tick (data : gmap string pyval) (now_ms : Qc)
    : option Tick :=
  x ← py_div_1000 (dict_get data "T" (dict_get data "E" (PyFloat now_ms)));
  ts ← fromtimestamp x;
  s ← py_lower (dict_get data "s" (PyStr ""));
  p ← py_float (dict_get data "p" (PyInt 0));
  q ← py_float (dict_get data "q" (PyInt 0));
  Some {| symbol := s; timestamp := ts; price := p; size := q;
          event_time := dict_get data "T" PyNone;
          trade_id := dict_get data "t" PyNone;
          is_buyer_maker := dict_get data "m" (PyBool false) |}.

(** [data.get('e') == 'trade'] *)
Definition is_trade_event (d : gmap string pyval) : bool :=
  match d !! "e" with
  | Some (PyStr s) => String.eqb s "trade"
  | _ => false
  end.

(** The tick that [_on_message] obtains from a message, if any: the
    [json.loads], the filter on the event type and [_normalize_tick]. *)
Definition message_tick (message : feed_message) (now_ms : Qc) : option Tick :=
  match message with
  | JsonDict d =>
      if is_trade_event d then _normalize_tick d now_ms else None
  | BadJson | JsonValue _ => None
  end.

(** BinanceCollector._on_message.  [ref] is the reference of the dictionary
    that [_normalize_tick] allocates.  The result pairs the new state with
    the calls made to the consumer.  The method does not read [running]. *)
Definition _on_message (c : BinanceCollector) (ref : nat)
    (message : feed_message) (now_ms : Qc)
    : BinanceCollector * list (nat * TickObj) :=
  match message_tick message now_ms with
  | Some t =>
      ({| symbols := symbols c; on_message_callback := on_message_callback c;
          running := running c; ws_connections := ws_connections c;
          message_buffer := message_buffer c ++ [(ref, t)] |},
       match on_message_callback c with
       | Some consumer => [(consumer, (ref, t))]
       | None => []
       end)
  | None => (c, [])
  end.

End WithInterpreter.

(** BinanceCollector._create_connection: the URL of the stream. *)
Definition _create_connection (sym : string) : string :=
  ("wss://fstream.binance.com/ws/" ++ sym ++ "@trade")%string.

(** BinanceCollector.start.  Both paths end in Python's implicit
    [return None]; the running path only logs a warning before it. *)
Definition start (c : BinanceCollector) : BinanceCollector * py_result :=
  if running c then (c, PyReturn PyNone)
  else
    ({| symbols := symbols c; on_message_callback := on_message_callback c;
        running := true;
        ws_connections := _create_connection <$> symbols c;
        message_buffer := message_buffer c |},
     PyReturn PyNone).

(** BinanceCollector.stop *)
Definition stop (c : BinanceCollector) : BinanceCollector * py_result :=
  ({| symbols := symbols c; on_message_callback := on_message_callback c;
      running := false; ws_connections := [];
      message_buffer := message_buffer c |},
   PyReturn PyNone).

(** BinanceCollector.get_buffered_messages: the whole body runs under
    [buffer_lock], so it is one step of the collector.  The returned list
    is a copy that shares the tick objects. *)
Definition get_buffered_messages (c : BinanceCollector) (clear : bool)
    : list TickObj * BinanceCollector :=
  let messages := message_buffer c in
  (messages,
   if clear then
     {| symbols := symbols c; on_message_callback := on_message_callback c;
        running := running c; ws_connections := ws_connections c;
        message_buffer := [] |}
   else c).

(** BinanceCollector.get_message_count *)
Definition get_message_count (c : BinanceCollector) : nat :=
  length (message_buffer c).

(** *** The collector among its callers

    The socket threads and the API handlers interleave their calls; each
    call below is atomic for the buffer, which is only touched under the
    lock.  [_on_message] calls the consumer after it has released the
    lock: [ObsNotified] tells which calls to the consumer a message leads
    to, at the place of its append in the trace, and not when the
    consumer runs, which other threads' steps may precede.  A [System] is
    the collector object and the allocation counter of the interpreter,
    which hands every new tick a reference never used before. *)

Inductive call :=
  | CallOnMessage (message : feed_message) (now_ms : Qc)
  | CallStart
  | CallStop
  | CallDrain (clear : bool)
  | CallCount.

Inductive observation :=
  | ObsNotified (calls : list (nat * TickObj))
  | ObsResult (r : py_result)
  | ObsDrained (ticks : list TickObj)
  | ObsCount (n : nat).

Record System := {
  collector : BinanceCollector;
  next_ref : nat
}.

Section WithInterpreterSystem.
Variable str_lower : string → string.
Variable float_of_str : string → option Qc.
Variable fromtimestamp : Qc → option Z.

Definition step (s : System) (k : call) : System * observation :=
  match k with
  | CallOnMessage message now_ms =>
      let '(c, notified) :=
        _on_message str_lower float_of_str fromtimestamp (collector s)
          (next_ref s) message now_ms in
      ({| collector := c; next_ref := S (next_ref s) |}, ObsNotified notified)
  | CallStart =>
      let '(c, r) := start (collector s) in
      ({| collector := c; next_ref := next_ref s |}, ObsResult r)
  | CallStop =>
      let '(c, r) := stop (collector s) in
      ({| collector := c; next_ref := next_ref s |}, ObsResult r)
  | CallDrain clear =>
      let '(ticks, c) := get_buffered_messages (collector s) clear in
      ({| collector := c; next_ref := next_ref s |}, ObsDrained ticks)
  | CallCount =>
      (s, ObsCount (get_message_count (collector s)))
  end.

Fixpoint run (s : System) (ks : list call) : System * list observation :=
  match ks with
  | [] => (s, [])
  | k :: rest =>
      let '(s', o) := step s k in
      let '(s'', os) := run s' rest in
      (s'', o :: os)
  end.

(** The states a collector can be in: those that some sequence of calls
    reaches from a newly constructed one. *)
Definition reachable (s : System) : Prop :=
  ∃ syms cb ks,
    s = (run {| collector := init str_lower syms cb; next_ref := 0 |} ks).1.

End WithInterpreterSystem.

(** *** The references of buffered ticks

    [refs_below]: every buffered tick was allocated before now.
    [refs_from n]: every buffered tick, and every tick to come, has a
    reference from [n] on. *)

Definition refs_below (s : System) : Prop :=
  Forall (λ o : TickObj, (o.1 < next_ref s)%nat) (message_buffer (collector s)).

Definition refs_from (n : nat) (s : System) : Prop :=
  (n ≤ next_ref s)%nat
  ∧ Forall (λ o : TickObj, (n ≤ o.1)%nat) (message_buffer (collector s)).

(** The ticks handed out by the drains of a trace. *)
Definition drained (os : list observation) : list TickObj :=
  os ≫= λ o, match o with ObsDrained ticks => ticks | _ => [] end.

(** The calls to the consumer that the messages of a trace lead to:
    (consumer, tick), listed in the order of the appends. *)
Definition notified (os : list observation) : list (nat * TickObj) :=
  os ≫= λ o, match o with ObsNotified calls => calls | _ => [] end.

(** *** The two readings of "normalization succeeds"

    [field_parses d k]: the field is in the message and [float] accepts
    it: the required fields of the specification "parse as numbers". *)
Section Acceptance.
Variable str_lower : string → string.
Variable float_of_str : string → option Qc.
Variable fromtimestamp : Qc → option Z.



(** [float(d.get(k, 0))] succeeds: the field is absent (and reads as 0) or
    [float] accepts it. *)
Definition field_floats (d : gmap string pyval) (k : string) : bool :=
  match d !! k with
  | Some v => bool_decide (is_Some (py_float float_of_str v))
  | None => true
  end.

(** The timestamp source: [T] if present, else [E], else the local clock. *)
Definition timestamp_source (d : gmap string pyval) (now_ms : Qc) : pyval :=
  dict_get d "T" (dict_get d "E" (PyFloat now_ms)).

(** The source is a number that divides by 1000 to a double that
    [datetime.fromtimestamp] accepts. *)
Definition timestamp_ok (d : gmap string pyval) (now_ms : Qc) : bool :=
  match py_div_1000 (timestamp_source d now_ms) with
  | Some x => bool_decide (is_Some (fromtimestamp x))
  | None => false
  end.

(** The symbol is absent or a string. *)
Definition symbol_ok (d : gmap string pyval) : bool :=
  match d !! "s" with
  | Some (PyStr _) | None => true
  | Some _ => false
  end.

(** The code's condition for a Tick. *)
Definition code_accepts (message : feed_message) (now_ms : Qc) : bool :=
  match message with
  | JsonDict d =>
      is_trade_event d && timestamp_ok d now_ms && symbol_ok d
      && field_floats d "p" && field_floats d "q"
  | BadJson | JsonValue _ => false
  end.
End Acceptance.

(** A caller of [start] learns of a failure through an exception or
    through a returned value other than [None]. *)
Definition reports_error (r : py_result) : Prop :=
  match r with
  | PyRaise _ => True
  | PyReturn v => v ≠ PyNone
  end.

(** *** An interpreter to run examples with

    [str.lower] on ASCII strings, [float] on plain decimal literals (an
    optional sign, digits, an optional fraction) and
    [datetime.fromtimestamp] of a process in UTC with the range of the
    years 1 to 9999. *)
Definition ascii_lower (c : ascii) : ascii :=
  let n := nat_of_ascii c in
  if ((65 <=? n) && (n <=? 90))%nat then ascii_of_nat (n + 32) else c.

Fixpoint lower (s : string) : string :=
  match s with
  | EmptyString => EmptyString
  | String c r => String (ascii_lower c) (lower r)
  end.

Fixpoint digits_value (s : string) (acc : Z) : option Z :=
  match s with
  | EmptyString => Some acc
  | String c r =>
      let n := Z.of_nat (nat_of_ascii c) in
      if (48 <=? n) && (n <=? 57) then digits_value r (acc * 10 + (n - 48))
      else None
  end.

Fixpoint split_point (s : string) : string * option string :=
  match s with
  | EmptyString => (EmptyString, None)
  | String c r =>
      if Ascii.eqb c "."%char then (EmptyString, Some r)
      else let '(a, b) := split_point r in (String c a, b)
  end.

Definition unsigned_decimal (s : string) : option Qc :=
  let '(ip, fp) := split_point s in
  let fp := default EmptyString fp in
  if (String.length ip + String.length fp =? 0)%nat then None
  else
    i ← digits_value ip 0;
    f ← digits_value fp 0;
    let scale := 10 ^ Z.of_nat (String.length fp) in
    Some (b64 (Q2Qc (Qmake (i * scale + f) (Z.to_pos scale)))).

Definition decimal_float (s : string) : option Qc :=
  match s with
  | String "-"%char r => Qcopp <$> unsigned_decimal r
  | String "+"%char r => unsigned_decimal r
  | _ => unsigned_decimal s
  end.

Definition utc_fromtimestamp (x : Qc) : option Z :=
  if Qle_bool (inject_Z (-62135596800)) x
     && negb (Qle_bool (inject_Z 253402300800) x)
  then Some (round_half_even (x * Qc_of_Z 1000000)%Qc)
  else None.

(** A well-formed trade message of the feed, the one of the docstring of
    [_normalize_tick]. *)
Definition trade_message : gmap string pyval :=
  list_to_map
    [("e", PyStr "trade"); ("E", PyInt 123456789); ("s", PyStr "BTCUSDT");
     ("t", PyInt 12345); ("p", PyStr "40000.00"); ("q", PyStr "0.1");
     ("T", PyInt 123456789); ("m", PyBool true)].

(** The state after a start and two trade messages. *)
Definition two_ticks_buffered : System :=
  (run lower decimal_float utc_fromtimestamp
     {| collector := init lower ["BTCUSDT"] None; next_ref := 0 |}
     [CallStart;
      CallOnMessage (JsonDict trade_message) (Qc_of_Z 0);
      CallOnMessage (JsonDict trade_message) (Qc_of_Z 0)]).1.

(** *** The ticks a sequence of calls brings in

    The tick objects that the messages among the calls [ks] put into the
    buffer, in order of arrival, when the allocation counter starts at
    [ref]. *)
Section Accepted.
Variable str_lower : string → string.
Variable float_of_str : string → option Qc.
Variable fromtimestamp : Qc → option Z.

Fixpoint accepted (ref : nat) (ks : list call) : list TickObj :=
  match ks with
  | [] => []
  | CallOnMessage message now_ms :: rest =>
      match message_tick str_lower float_of_str fromtimestamp message now_ms with
      | Some t => [(ref, t)]
      | None => []
      end ++ accepted (S ref) rest
  | _ :: rest => accepted ref rest
  end.
End Accepted.

End Collector.

(* ===================================================================== *)
(** ** Resampler: src/backend/resampler.py *)
(* ===================================================================== *)

Module Resampler.
Import Collector.

(** The [timeframe] argument as pandas reads it: the string, which is
    copied into every bar, and the width of the bins it stands for, in
    microseconds.  The type covers the frequencies of a fixed width
    (["1s"], ["7min"], ["2h"], ["1d"], ...); a calendar frequency, whose
    bins differ in width, and a string that [resample] rejects are not in
    it. *)
Record Timeframe := {
  timeframe_name : string;
  width_us : positive
}.

Definition second_us : Z := 1000000.
Definition day_us : Z := 86400 * second_us.

(** The width of a bin of the frequency, in microseconds. *)
Definition period_us (tf : Timeframe) : Z := Z.pos (width_us tf).

(** The timeframes of [timeframe_map]. *)
Definition TF_1s : Timeframe :=
  {| timeframe_name := "1s"; width_us := 1000000 |}.
Definition TF_1min : Timeframe :=
  {| timeframe_name := "1min"; width_us := 60000000 |}.
Definition TF_5min : Timeframe :=
  {| timeframe_name := "5min"; width_us := 300000000 |}.
Definition TF_15min : Timeframe :=
  {| timeframe_name := "15min"; width_us := 900000000 |}.
Definition TF_1h : Timeframe :=
  {| timeframe_name := "1h"; width_us := 3600000000 |}.
Definition TF_1d : Timeframe :=
  {| timeframe_name := "1d"; width_us := 86400000000 |}.

(** A width that does not divide a day. *)
Definition TF_7min : Timeframe :=
  {| timeframe_name := "7min"; width_us := 420000000 |}.

(** DataResampler.get_timeframe_seconds: [timeframe_map.get(timeframe, 60)]. *)
Definition get_timeframe_seconds (timeframe : string) : Z :=
  if String.eqb timeframe "1s" then 1
  else if String.eqb timeframe "1min" then 60
  else if String.eqb timeframe "5min" then 300
  else if String.eqb timeframe "15min" then 900
  else if String.eqb timeframe "1h" then 3600
  else if String.eqb timeframe "1d" then 86400
  else 60.

(** One entry of the list returned by [resample_to_ohlc].  The four price
    cells are floats of the frame: [None] is NaN. *)
Record OHLCBar := {
  bar_symbol : string;
  bar_timestamp : Z;
  open : option Qc;
  high : option Qc;
  low : option Qc;
  close : option Qc;
  volume : Qc;
  trade_count : nat;
  timeframe : string
}.

(** [df.sort_index()]: ascending in the timestamp.  Among ticks of equal
    timestamp the order is that of arrival here; pandas sorts with
    quicksort and may leave them in another order, so what is stated about
    a frame below holds for every order of such ticks. *)
Fixpoint insert_by_time (t : Tick) (l : list Tick) : list Tick :=
  match l with
  | [] => [t]
  | u :: r =>
      if timestamp t <=? timestamp u then t :: l
      else u :: insert_by_time t r
  end.

Definition sort_index (l : list Tick) : list Tick :=
  foldr insert_by_time [] l.

(** The ISO string of a timestamp shows the microseconds only when they
    are not zero ([datetime.isoformat]). *)
Definition has_fraction (ts : Z) : bool := negb (ts mod second_us =? 0).

Definition same_precision (stamps : list Z) : bool :=
  match stamps with
  | [] => true
  | first :: _ =>
      forallb (λ ts, Bool.eqb (has_fraction ts) (has_fraction first)) stamps
  end.

(** [pd.to_datetime] on the column of ISO strings.  pandas reads the
    format off the first string and parses the column with it: a string
    of the other form (with microseconds where the first has none, or
    without) raises ValueError.  What it returns are the timestamps
    behind the strings. *)
Definition to_datetime (stamps : list Z) : outcome (list Z) :=
  if same_precision stamps then Returns stamps else Raises "ValueError".

(** DataResampler.ticks_to_dataframe: the rows of the frame, in index
    order (the empty list is the empty frame). *)
Definition ticks_to_dataframe (ticks : list Tick) : outcome (list Tick) :=
  match ticks with
  | [] => Returns []
  | _ =>
      match to_datetime (timestamp <$> ticks) with
      | Returns _ => Returns (sort_index ticks)
      | Raises exn => Raises exn
      end
  end.

(** [Timestamp.normalize()]: midnight of the same day. *)
Definition normalize_day (ts : Z) : Z := ts / day_us * day_us.

(** The left edge of the bin of [ts].  pandas anchors the grid of a
    fixed-width frequency at [origin], midnight of the first row's day
    (the default [origin='start_day']); bins are closed on the left and
    labelled by their left edge. *)
Definition bin_of (origin period ts : Z) : Z :=
  origin + (ts - origin) / period * period.

Definition qc_leb (a b : Qc) : bool := Qle_bool a b.
Definition qc_max (a b : Qc) : Qc := if qc_leb a b then b else a.
Definition qc_min (a b : Qc) : Qc := if qc_leb a b then a else b.

Section WithFloatSum.
(** The sum of the floats of one bin as [resample(...).sum()] computes it:
    a double that depends on the values and, by rounding, on the order
    and the method of the summation. *)
Variable float_sum : list Qc → Qc.

(** The aggregates of one bin: [.ohlc()] gives NaN on an empty bin and
    [.size()] gives 0. *)
Definition group_open (g : list Tick) : option Qc := price <$> head g.
Definition group_close (g : list Tick) : option Qc := price <$> last g.
Definition group_high (g : list Tick) : option Qc :=
  match g with
  | [] => None
  | t :: r => Some (foldl (λ m u, qc_max m (price u)) (price t) r)
  end.
Definition group_low (g : list Tick) : option Qc :=
  match g with
  | [] => None
  | t :: r => Some (foldl (λ m u, qc_min m (price u)) (price t) r)
  end.
Definition group_volume (g : list Tick) : Qc := float_sum (size <$> g).

(** A row of [pd.concat([ohlc, volume, trade_count], axis=1)]. *)
Record Row := {
  r_label : Z;
  r_open : option Qc;
  r_high : option Qc;
  r_low : option Qc;
  r_close : option Qc;
  r_volume : Qc;
  r_trade_count : nat
}.

Definition make_row (label : Z) (g : list Tick) : Row :=
  {| r_label := label; r_open := group_open g; r_high := group_high g;
     r_low := group_low g; r_close := group_close g;
     r_volume := group_volume g; r_trade_count := length g |}.

(** The rows that the three [resample] calls produce: one per bin from the
    bin of the first row to the bin of the last row. *)
Definition resample_rows (period : Z) (df : list Tick) : list Row :=
  match df with
  | [] => []
  | first :: _ =>
      let origin := normalize_day (timestamp first) in
      let lo := bin_of origin period (timestamp first) in
      let hi := bin_of origin period (timestamp (default first (last df))) in
      (λ k, let label := lo + k * period in
            make_row label
              (filter (λ t, bin_of origin period (timestamp t) = label) df))
        <$> seqZ 0 ((hi - lo) / period + 1)
  end.

(** [x if notna(x) else y], for one cell. *)
Definition or_next (x next : option Qc) : option Qc :=
  match x with
  | Some _ => x
  | None => next
  end.

(** [result.bfill()]: every NaN takes the next valid value further down in
    its own column.  The volume and trade_count columns hold no NaN. *)
Fixpoint bfill (rows : list Row) : list Row :=
  match rows with
  | [] => []
  | r :: rest =>
      let rest' := bfill rest in
      {| r_label := r_label r;
         r_open := or_next (r_open r) (head rest' ≫= r_open);
         r_high := or_next (r_high r) (head rest' ≫= r_high);
         r_low := or_next (r_low r) (head rest' ≫= r_low);
         r_close := or_next (r_close r) (head rest' ≫= r_close);
         r_volume := r_volume r;
         r_trade_count := r_trade_count r |} :: rest'
  end.

(** The loop over [result.iterrows()]. *)
Definition row_to_bar (sym tf : string) (r : Row) : OHLCBar :=
  {| bar_symbol := sym; bar_timestamp := r_label r;
     open := r_open r; high := r_high r; low := r_low r; close := r_close r;
     volume := r_volume r; trade_count := r_trade_count r; timeframe := tf |}.

(** DataResampler.resample_to_ohlc, for a bin width given in
    microseconds.  An exception of [ticks_to_dataframe] is not caught. *)
Definition resample_with (period : Z) (tf : string) (ticks : list Tick)
    : outcome (list OHLCBar) :=
  match ticks with
  | [] => Returns []
  | _ =>
      match ticks_to_dataframe ticks with
      | Raises exn => Raises exn
      | Returns [] => Returns []
      | Returns ((first :: _) as df) =>
          Returns (row_to_bar (symbol first) tf
                     <$> bfill (resample_rows period df))
      end
  end.

(** DataResampler.resample_to_ohlc *)
Definition resample_to_ohlc (ticks : list Tick) (tf : Timeframe)
    : outcome (list OHLCBar) :=
  resample_with (period_us tf) (timeframe_name tf) ticks.

(** DataResampler.aggregate_ticks *)
Definition aggregate_ticks (ticks : list Tick) (tf : Timeframe)
    : outcome (list OHLCBar) :=
  resample_to_ohlc ticks tf.
End WithFloatSum.

(** A sum to run examples with: the floats added from left to right, each
    partial sum rounded.  Whatever the method of summation, the sum of no
    float is 0, that of one float is the float and that of two floats is
    their rounded sum. *)
Definition seq_float_sum (l : list Qc) : Qc :=
  foldl (λ acc x, b64 (acc + x)%Qc) 0%Qc l.


(** A tick of the given symbol, as the database hands it back. *)
Definition tick_at (sym : string) (ts : Z) (p q : Qc) : Tick :=
  {| symbol := sym; timestamp := ts; price := p; size := q;
     event_time := PyNone; trade_id := PyNone; is_buyer_maker := PyNone |}.

(** The order of the index after [sort_index]. *)
Definition time_le (a b : Tick) : Prop := timestamp a ≤ timestamp b.

(** A row whose four price cells hold a value. *)
Definition row_defined (r : Row) : Prop :=
  is_Some (r_open r) ∧ is_Some (r_high r) ∧ is_Some (r_low r)
  ∧ is_Some (r_close r).

End Resampler.
(* ===================================================================== *)
(** ** Analytics: src/analytics/engine.py *)
(* ===================================================================== *)

Module Analytics.

(** A float that may be one of the IEEE special values. *)
Inductive float64 :=
  | Fin (q : Qc)
  | NaN
  | PosInf
  | NegInf.

(** A [pd.Series]: index labels with their values.  An input cell is a
    finite float or NaN ([None]), pandas' marker of a missing value. *)
Definition Series (A : Type) : Type := list (Z * A).

Definition values {A} (s : Series A) : list A := s.*2.

Definition qc_sum (l : list Qc) : Qc := foldr Qcplus 0%Qc l.
Definition qc_of_nat (n : nat) : Qc := Qc_of_Z (Z.of_nat n).
Definition qc_is_zero (q : Qc) : bool := Qeq_bool q 0.
Definition qc_sq (q : Qc) : Qc := (q * q)%Qc.

Definition mean (l : list Qc) : Qc := (qc_sum l / qc_of_nat (length l))%Qc.

(** The square root of a float.  The float result is a rounding of the
    real root; here it is rounded down to a multiple of [2^-52 / den],
    which keeps it exact at 0. *)
Definition fsqrt (q : Qc) : Qc :=
  Q2Qc (Qmake (Z.sqrt (Qnum q * Zpos (Qden q) * 2 ^ 104))
              (Qden q * 2 ^ 52)).

(** Sum of squared deviations from the mean. *)
Definition ss_dev (l : list Qc) : Qc :=
  qc_sum ((λ x, qc_sq (x - mean l)%Qc) <$> l).

(** The window of [series.rolling(window=W)] that ends at position [i]:
    defined once [W] observations are there ([min_periods] defaults to the
    window) and none of them is NaN. *)
Definition window_at (W : nat) (vals : list (option Qc)) (i : nat)
    : option (list Qc) :=
  if decide (1 ≤ W ∧ W ≤ S i)%nat
  then mapM id (take W (drop (S i - W) vals))
  else None.

(** [.rolling(window=W).mean()] *)
Definition rolling_mean (W : nat) (vals : list (option Qc))
    : list (option Qc) :=
  imap (λ i _, mean <$> window_at W vals i) vals.

(** [.rolling(window=W).std()]: the sample deviation ([ddof=1]), NaN when
    the window holds a single observation.  The deviation is computed
    from the window in exact arithmetic: it is exactly 0 on a window of
    equal values, as it is in pandas when the whole series is constant
    (the case of the statements below that rest on it).  pandas updates
    the variance from window to window, so that on a constant stretch
    after other values its float can keep a residue; no statement here
    concerns that case. *)
Definition sample_std (w : list Qc) : option Qc :=
  if decide (length w ≤ 1)%nat then None
  else Some (fsqrt (ss_dev w / qc_of_nat (length w - 1))%Qc).

Definition rolling_std (W : nat) (vals : list (option Qc))
    : list (option Qc) :=
  imap (λ i _, window_at W vals i ≫= sample_std) vals.

(** Elementwise [x - y] on cells: NaN propagates. *)
Definition cell_sub (x y : option Qc) : option Qc :=
  a ← x; b ← y; Some (a - b)%Qc.

(** Elementwise [x / y] as numpy divides floats: no exception, [0/0] is
    NaN and a nonzero numerator over zero is an infinity. *)
Definition cell_div (x y : option Qc) : float64 :=
  match x, y with
  | Some a, Some b =>
      if qc_is_zero b then
        if qc_is_zero a then NaN
        else if Qle_bool 0 a then PosInf else NegInf
      else Fin (a / b)%Qc
  | _, _ => NaN
  end.

(** AnalyticsEngine.compute_zscore.  [pd.Series()] is the empty list. *)
Definition compute_zscore (series : Series (option Qc)) (window : nat)
    : Series float64 :=
  if decide (length series < window)%nat then []
  else
    let vals := values series in
    let rolling_mean := rolling_mean window vals in
    let rolling_std := rolling_std window vals in
    zip (series.*1)
        (zip_with cell_div (zip_with cell_sub vals rolling_mean) rolling_std).

(** The value of a series at a label. *)
Fixpoint series_at (s : Series (option Qc)) (t : Z) : option Qc :=
  match s with
  | [] => None
  | (u, v) :: r => if decide (u = t) then v else series_at r t
  end.

(** [pd.DataFrame({'series1': s1, 'series2': s2}).dropna()]: the rows whose
    label carries a value in both series (index labels are unique).  The
    pair is (series1, series2). *)
Definition align (s1 s2 : Series (option Qc)) : Series (Qc * Qc) :=
  omap (λ '(t, v), a ← v; b ← series_at s2 t; Some (t, (a, b))) s1.

(** *** Hedge ratio, in binary64

    The regression is modelled on the binary64 floats of the kernel
    ([PrimFloat]), operation by operation: the guard [ss_tot != 0] of the
    code tests a rounded sum, and exact arithmetic would decide it
    differently.  A cell of an input series is a float, NaN for a missing
    value. *)

(** The cell of a series at a label, NaN where the series has no such
    label: what the reindexing of [pd.DataFrame({...})] puts there. *)
Fixpoint cell_at (s : Series float) (t : Z) : float :=
  match s with
  | [] => nan
  | (u, v) :: r => if decide (u = t) then v else cell_at r t
  end.

(** The index of [pd.DataFrame({'series1': s1, 'series2': s2})]: the
    index of the series when both have the same, and else the union of
    their labels in ascending order. *)
Definition frame_index (s1 s2 : Series float) : list Z :=
  if decide (s1.*1 = s2.*1) then s1.*1
  else merge_sort Z.le (list_union (s1.*1) (s2.*1)).

(** [pd.DataFrame({'series1': s1, 'series2': s2}).dropna()] on float
    series whose labels are unique: the rows in which neither cell is
    NaN, which are the rows of the inner join on the labels when the
    series hold no NaN.  The pair is (series1, series2). *)
Definition frame_dropna (s1 s2 : Series float) : Series (float * float) :=
  omap (λ t,
          let a := cell_at s1 t in
          let b := cell_at s2 t in
          if is_nan a || is_nan b then None else Some (t, (a, b)))
       (frame_index s1 s2).

Record HedgeResult := {
  hedge_ratio : float;
  intercept : float;
  r_squared : float;
  method : string
}.

Definition hedge_zero (method : string) : HedgeResult :=
  {| hedge_ratio := 0%float; intercept := 0%float; r_squared := 0%float;
     method := method |}.

(** [x ** 2] on a float: numpy squares by one multiplication. *)
Definition fsquare (x : float) : float := (x * x)%float.

Section WithNumpy.
(** [np.linalg.lstsq(X_with_const, y, rcond=None)[0]] for the design
    matrix of columns [1, x], as the pair ([beta[0]], [beta[1]]); [None]
    when it raises (LinAlgError).  It is LAPACK's gelsd, an SVD: nothing
    is assumed of the values it returns. *)
Variable lstsq : list float → list float → option (float * float).
(** [Series.sum()] and [Series.mean()] of pandas on a float column. *)
Variable series_sum : list float → float.
Variable series_mean : list float → float.

(** [((aligned['series1'] - aligned['series1'].mean()) ** 2).sum()] *)
Definition total_ss (y : list float) : float :=
  let m := series_mean y in
  series_sum ((λ a, fsquare (a - m)%float) <$> y).

(** [((aligned['series1'] - y_pred) ** 2).sum()] with
    [y_pred = intercept + hedge_ratio * aligned['series2']] *)
Definition residual_ss (intercept hedge_ratio : float) (x y : list float)
    : float :=
  let y_pred := (λ b, intercept + hedge_ratio * b)%float <$> x in
  series_sum (zip_with (λ a p, fsquare (a - p)%float) y y_pred).

(** AnalyticsEngine.compute_hedge_ratio.  Everything from the call of
    lstsq on is inside the [try]: an exception there gives the all-zero
    result. *)
Definition compute_hedge_ratio (series1 series2 : Series float)
    (method : string) : HedgeResult :=
  let aligned := frame_dropna series1 series2 in
  if decide (length aligned < 2)%nat then hedge_zero method
  else
    let x := (λ r, r.2.2) <$> aligned in
    let y := (λ r, r.2.1) <$> aligned in
    match lstsq x y with
    | Some (intercept, hedge_ratio) =>
        let ss_res := residual_ss intercept hedge_ratio x y in
        let ss_tot := total_ss y in
        let r_squared :=
          if negb (ss_tot =? 0)%float then (1 - ss_res / ss_tot)%float
          else 0%float in
        {| hedge_ratio := hedge_ratio; intercept := intercept;
           r_squared := r_squared; method := method |}
    | None => hedge_zero method
    end.
End WithNumpy.

(** *** numpy and pandas to run examples with *)

Definition float_of_nat (n : nat) : float :=
  of_uint63 (Uint63.of_Z (Z.of_nat n)).

(** [Series.sum()]: NaN counts as 0 and the cells are added from left to
    right, the order of numpy for fewer than eight of them. *)
Definition nansum (l : list float) : float :=
  foldl (λ acc v, acc + (if is_nan v then 0 else v))%float 0%float l.

(** [Series.mean()]: the sum over the number of cells that are not NaN. *)
Definition nanmean (l : list float) : float :=
  (nansum l / float_of_nat (length (filter (λ v, is_nan v = false) l)))%float.


(** Series A constant at 5 against B rising from 1 to 2; series A constant
    at 0.1 against B rising from 1 to 3. *)
Definition flat_A64 : Series float := [(0%Z, 5%float); (1%Z, 5%float)].
Definition rising_B64 : Series float := [(0%Z, 1%float); (1%Z, 2%float)].

Record AdfResult := {
  adf_statistic : Qc;
  pvalue : Qc;
  critical_values : gmap string Qc;
  is_stationary : bool
}.

Definition adf_sentinel : AdfResult :=
  {| adf_statistic := 0%Qc; pvalue := 1%Qc; critical_values := ∅;
     is_stationary := false |}.

(** [series.dropna()], values only. *)
Definition dropna (s : Series (option Qc)) : list Qc :=
  omap id (values s).

Section WithAdfuller.
(** statsmodels' [adfuller]: the statistic, the p-value and the critical
    values at 1%, 5% and 10%; [None] when it raises. *)
Variable adfuller : list Qc → option (Qc * Qc * (Qc * Qc * Qc)).

(** AnalyticsEngine.compute_adf_test *)
Definition compute_adf_test (series : Series (option Qc)) : AdfResult :=
  if decide (length series < 10)%nat then adf_sentinel
  else
    let series_clean := dropna series in
    if decide (length series_clean < 10)%nat then adf_sentinel
    else
      match adfuller series_clean with
      | Some (stat, p, (c1, c5, c10)) =>
          {| adf_statistic := stat; pvalue := p;
             critical_values :=
               <["1%" := c1]> (<["5%" := c5]> (<["10%" := c10]> ∅));
             is_stationary :=
               negb (Qle_bool (Qmake 5 100) p) |}
      | None => adf_sentinel
      end.
End WithAdfuller.

(** *** Series to run examples with *)

(** The constant series 1, 1, 1. *)
Definition three_ones : Series (option Qc) :=
  [(0%Z, Some (Qc_of_Z 1)); (1%Z, Some (Qc_of_Z 1)); (2%Z, Some (Qc_of_Z 1))].

(** A series constant at 5, on two labels. *)
Definition flat_A : Series (option Qc) :=
  [(0%Z, Some (Qc_of_Z 5)); (1%Z, Some (Qc_of_Z 5))].

(** *** Moving average, Bollinger bands, returns *)

(** AnalyticsEngine.compute_moving_average *)
Definition compute_moving_average (series : Series (option Qc))
    (window : nat) : Series (option Qc) :=
  zip (series.*1) (rolling_mean window (values series)).

(** Elementwise [x + y] and [x * k] on cells: NaN propagates. *)
Definition cell_add (x y : option Qc) : option Qc :=
  a ← x; b ← y; Some (a + b)%Qc.
Definition cell_scale (k : Qc) (x : option Qc) : option Qc :=
  a ← x; Some (a * k)%Qc.

Record BollingerBands := {
  upper : Series (option Qc);
  middle : Series (option Qc);
  lower : Series (option Qc)
}.

(** AnalyticsEngine.compute_bollinger_bands *)
Definition compute_bollinger_bands (series : Series (option Qc))
    (window : nat) (num_std : Qc) : BollingerBands :=
  let vals := values series in
  let rolling_mean := rolling_mean window vals in
  let rolling_std := rolling_std window vals in
  {| upper := zip (series.*1)
                (zip_with cell_add rolling_mean
                   (cell_scale num_std <$> rolling_std));
     middle := zip (series.*1) rolling_mean;
     lower := zip (series.*1)
                (zip_with cell_sub rolling_mean
                   (cell_scale num_std <$> rolling_std)) |}.

(** [x - 1] on a float that may be special. *)
Definition float_pred (x : float64) : float64 :=
  match x with
  | Fin q => Fin (q - 1)%Qc
  | other => other
  end.

Definition is_nan (x : float64) : bool :=
  match x with
  | NaN => true
  | _ => false
  end.

Section WithPctFill.
(** The fill that [pct_change] applies to missing values before it
    divides; which one depends on the pandas version. *)
Variable pct_fill : list (option Qc) → list (option Qc).

(** [prices.pct_change()]: NaN at the first position, then
    [x_i / x_(i-1) - 1] in float arithmetic. *)
Definition pct_change (vals : list (option Qc)) : list float64 :=
  match pct_fill vals with
  | [] => []
  | filled =>
      NaN :: zip_with (λ prev cur, float_pred (cell_div cur prev))
               filled (tail filled)
  end.

(** AnalyticsEngine.compute_returns: [prices.pct_change().dropna()]. *)
Definition compute_returns (prices : Series (option Qc)) : Series float64 :=
  filter (λ p, is_nan p.2 = false)
    (zip (prices.*1) (pct_change (values prices))).
End WithPctFill.

(** *** Volume profile *)

(** [np.linspace(start, stop, num + 1)[k]] *)
Definition linspace_at (start stop : Qc) (num : nat) (k : nat) : Qc :=
  (start + qc_of_nat k * ((stop - start) / qc_of_nat num))%Qc.

(** [np.digitize(x, bins_edges[:-1])] for increasing edges: the number of
    the [num] left edges that are at most [x]. *)
Definition digitize (start stop : Qc) (num : nat) (x : Qc) : nat :=
  length (filter (λ k, Qle_bool (linspace_at start stop num k) x = true)
            (seq 0 num)).

(** [bin_centers[k]], for [k] below [num]. *)
Definition bin_center (start stop : Qc) (num : nat) (k : nat) : Qc :=
  ((linspace_at start stop num k + linspace_at start stop num (S k))
   / Qc_of_Z 2)%Qc.

Definition qc_min_list (x : Qc) (l : list Qc) : Qc :=
  foldl (λ m y : Qc, if Qle_bool m y then m else y) x l.
Definition qc_max_list (x : Qc) (l : list Qc) : Qc :=
  foldl (λ m y : Qc, if Qle_bool m y then y else m) x l.

(** [aligned.groupby(bin_indices)['volumes'].sum()]: the bin indices that
    occur, ascending, each with the volume summed over its rows.  A row is
    (price, volume). *)
Definition volume_groups (start stop : Qc) (num : nat)
    (rows : list (Qc * Qc)) : list (nat * Qc) :=
  omap (λ idx,
          match filter (λ r, digitize start stop num r.1 = idx) rows with
          | [] => None
          | g => Some (idx, qc_sum (g.*2))
          end)
       (seq 0 (S num)).

(** [volume_profile.idxmax()]: the label of the first largest sum. *)
Definition idxmax (groups : list (nat * Qc)) : option nat :=
  fst <$> foldl (λ (best : option (nat * Qc)) (g : nat * Qc),
                   match best with
                   | None => Some g
                   | Some b => if Qle_bool g.2 b.2 then best else Some g
                   end) None groups.

(** What [compute_volume_profile] gives back: the empty dictionary, the
    profile, or the IndexError of [bin_centers[...]]. *)
Inductive profile_result :=
  | ProfileEmpty
  | Profile (price_levels volumes : list Qc) (poc : Qc)
  | ProfileIndexError.

(** AnalyticsEngine.compute_volume_profile *)
Definition compute_volume_profile (prices volumes : Series (option Qc))
    (bins : nat) : profile_result :=
  if decide (length prices = 0 ∨ length volumes = 0)%nat then ProfileEmpty
  else
    match (align prices volumes).*2 with
    | [] => ProfileEmpty
    | ((p0, _) :: rest) as aligned =>
        let price_min := qc_min_list p0 (rest.*1) in
        let price_max := qc_max_list p0 (rest.*1) in
        let volume_profile := volume_groups price_min price_max bins aligned in
        let price_levels :=
          (λ g, bin_center price_min price_max bins g.1)
            <$> filter (λ g, (g.1 < bins)%nat) volume_profile in
        match idxmax volume_profile with
        | Some i =>
            if decide (i < bins)%nat
            then Profile price_levels (volume_profile.*2)
                   (bin_center price_min price_max bins i)
            else ProfileIndexError
        | None => ProfileIndexError   (* no group: not for a non-empty frame *)
        end
    end.

(** Four trades: prices with their volumes, on the same labels. *)
Definition traded_prices : Series (option Qc) :=
  [(0%Z, Some (Qc_of_Z 10)); (1%Z, Some (Qc_of_Z 20));
   (2%Z, Some (Qc_of_Z 30)); (3%Z, Some (Qc_of_Z 12))].
Definition traded_volumes : Series (option Qc) :=
  [(0%Z, Some (Qc_of_Z 5)); (1%Z, Some (Qc_of_Z 1));
   (2%Z, Some (Qc_of_Z 2)); (3%Z, Some (Qc_of_Z 1))].

End Analytics.

(* ===================================================================== *)
(** * Properties of the alert engine *)
(* ===================================================================== *)

Section AlertProperties.
Import Alerts.

Lemma keep_last_drop {A} (n : nat) (l : list A) :
  keep_last n l = drop (length l - n) l.
Proof.
  unfold keep_last. case_decide as Hn; [done|].
  replace (length l - n)%nat with 0%nat by lia. done.
Qed.

Lemma keep_last_length {A} (n : nat) (l : list A) :
  (length (keep_last n l) ≤ n)%nat.
Proof. rewrite keep_last_drop, length_drop. lia. Qed.

Lemma keep_last_short {A} (n : nat) (l : list A) :
  (length l ≤ n)%nat → keep_last n l = l.
Proof. intros Hl. unfold keep_last. case_decide; [lia|done]. Qed.

(** Capping, appending and capping again is capping once. *)
Lemma keep_last_app {A} (n : nat) (l l' : list A) :
  l' ≠ [] → keep_last n (keep_last n l ++ l') = keep_last n (l ++ l').
Proof.
  intros Hl'. rewrite !keep_last_drop.
  destruct (decide (length l ≤ n)%nat) as [Hle|Hgt].
  - replace (length l - n)%nat with 0%nat by lia. done.
  - rewrite !length_app, length_drop.
    assert (0 < length l')%nat by (destruct l'; [done|simpl; lia]).
    replace (length l - (length l - n) + length l' - n)%nat
      with (length l')%nat by lia.
    replace (length l + length l' - n)%nat
      with ((length l - n) + length l')%nat by lia.
    rewrite <- drop_drop. f_equal.
    rewrite drop_app_le by lia. done.
Qed.

Lemma record_all_app (hist evs1 evs2 : list AlertEvent) :
  record_all hist (evs1 ++ evs2) = record_all (record_all hist evs1) evs2.
Proof. unfold record_all. apply foldl_app. Qed.

(** The history after a batch of records: the cap applied once to the old
    history followed by the batch. *)
Lemma record_all_closed (hist evs : list AlertEvent) :
  evs ≠ [] → record_all hist evs = keep_last history_cap (hist ++ evs).
Proof.
  revert hist. induction evs as [|e evs IH]; intros hist Hne; [done|].
  destruct evs as [|e' evs]; [done|].
  change (record_all hist (e :: e' :: evs))
    with (record_all (keep_last history_cap (hist ++ [e])) (e' :: evs)).
  rewrite IH by done. rewrite keep_last_app by done.
  by rewrite <- app_assoc.
Qed.

Variable py_eval : string → Context → option bool.

Lemma trigger_fired (a : Alert) (ctx : Context) (now : Z) :
  (trigger a ctx now).1 = fired now a.
Proof. unfold trigger. simpl. by destruct (callback a). Qed.

Lemma trigger_outcome (a : Alert) (ctx : Context) (now : Z) :
  (trigger a ctx now).2 = CbReturn ↔ callback_returns ctx now a = true.
Proof.
  unfold trigger, callback_returns. simpl.
  destruct (callback a) as [cb|]; [|done]. simpl.
  by destruct (cb _ ctx).
Qed.

(** One iteration of the loop, in closed form. *)
Lemma evaluate_one_closed (ctx : Context) (now : Z) (a : Alert)
    (hist : list AlertEvent) :
  evaluate_one py_eval ctx now a hist =
    (if evaluate py_eval a ctx && negb (triggered a) then fired now a else a,
     record_all hist (rule_events py_eval ctx now a)).
Proof.
  unfold evaluate_one, rule_events.
  destruct (evaluate py_eval a ctx); [|done].
  destruct (triggered a); [done|]. simpl.
  pose proof (trigger_fired a ctx now) as Hf.
  pose proof (trigger_outcome a ctx now) as Ho.
  destruct (trigger a ctx now) as [a' o]. simpl in *. subst a'.
  destruct o.
  - rewrite (proj1 Ho) by done. done.
  - destruct (callback_returns ctx now a); [|done].
    by destruct Ho as [_ Ho]; specialize (Ho eq_refl).
Qed.

Lemma evaluate_loop_history (ctx : Context) (clock : nat → Z) (i : nat)
    (als : list Alert) (hist : list AlertEvent) :
  (evaluate_loop py_eval ctx clock i als hist).2 =
    record_all hist (new_events py_eval ctx clock i als).
Proof.
  revert i hist. induction als as [|a als IH]; intros i hist; [done|].
  simpl. rewrite evaluate_one_closed.
  specialize (IH (S i) (record_all hist (rule_events py_eval ctx (clock i) a))).
  destruct (evaluate_loop _ _ _ _ als _) as [rest' hist'']. simpl in *.
  by rewrite record_all_app.
Qed.

Lemma evaluate_loop_alerts (ctx : Context) (clock : nat → Z) (i : nat)
    (als : list Alert) (hist : list AlertEvent) (j : nat) :
  (evaluate_loop py_eval ctx clock i als hist).1 !! j =
    (λ a, if evaluate py_eval a ctx && negb (triggered a)
          then fired (clock (i + j)%nat) a else a) <$> als !! j.
Proof.
  revert i j hist. induction als as [|a als IH]; intros i j hist; [done|].
  simpl. rewrite evaluate_one_closed.
  specialize (IH (S i) (pred j)
    (record_all hist (rule_events py_eval ctx (clock i) a))).
  destruct (evaluate_loop _ _ _ _ als _) as [rest' hist'']. simpl in *.
  destruct j as [|j]; simpl.
  - by rewrite Nat.add_0_r.
  - simpl in IH. rewrite IH, Nat.add_succ_r. done.
Qed.

Lemma evaluate_alerts_lookup (m : AlertManager) (ctx : Context)
    (clock : nat → Z) (j : nat) :
  alerts (evaluate_alerts py_eval m ctx clock) !! j =
    (λ a, if evaluate py_eval a ctx && negb (triggered a)
          then fired (clock j) a else a) <$> alerts m !! j.
Proof.
  unfold evaluate_alerts.
  pose proof (evaluate_loop_alerts ctx clock 0 (alerts m) (alert_history m) j).
  by destruct (evaluate_loop _ _ _ _ _ _).
Qed.

Lemma evaluate_alerts_history (m : AlertManager) (ctx : Context)
    (clock : nat → Z) :
  alert_history (evaluate_alerts py_eval m ctx clock) =
    record_all (alert_history m) (new_events py_eval ctx clock 0 (alerts m)).
Proof.
  unfold evaluate_alerts.
  pose proof (evaluate_loop_history ctx clock 0 (alerts m) (alert_history m)).
  by destruct (evaluate_loop _ _ _ _ _ _).
Qed.

(** A triggered rule is a fixed point of any run of refresh cycles. *)
Lemma evaluate_many_triggered (calls : list (Context * (nat → Z)))
    (m : AlertManager) (i : nat) (a : Alert) :
  alerts m !! i = Some a → triggered a = true →
  alerts (evaluate_many py_eval m calls) !! i = Some a.
Proof.
  revert m. induction calls as [|[ctx clock] calls IH]; intros m Hi Ht; [done|].
  simpl. apply IH; [|done].
  rewrite evaluate_alerts_lookup, Hi. simpl.
  by rewrite Ht, andb_false_r.
Qed.

Lemma new_events_all_triggered (ctx : Context) (clock : nat → Z) (i : nat)
    (als : list Alert) :
  Forall (λ a, triggered a = true) als →
  new_events py_eval ctx clock i als = [].
Proof.
  intros Hall. revert i. induction Hall as [|a als Ha _ IH]; intros i; [done|].
  simpl. rewrite IH, app_nil_r. unfold rule_events.
  by rewrite Ha, andb_false_r.
Qed.

End AlertProperties.

(** ** Edge triggering (C2) and rule removal (C10) *)

Section AlertClaims.
Import Alerts.

(** C2, as the code has it.  One refresh cycle [evaluate_alerts] changes
    the history by exactly the events of its rules, rule after rule, each
    append followed by the cap of 1000.  A rule that is armed, whose
    condition evaluates true and whose callback (if any) returns, becomes
    triggered, has its counter incremented by one and [triggered_at]
    stamped with the clock, and contributes exactly one event to the
    cycle.  A rule that is already triggered is left unchanged by every
    further run of refresh cycles and contributes no event to any of
    them, whatever the contexts, as long as nothing resets it. *)
Theorem alert_edge_trigger (py_eval : string → Context → option bool)
    (m : AlertManager) (ctx : Context) (clock : nat → Z)
    (i : nat) (a : Alert) :
  alerts m !! i = Some a →
  let m' := evaluate_alerts py_eval m ctx clock in
  let new := new_events py_eval ctx clock 0 (alerts m) in
  alert_history m' =
    match new with
    | [] => alert_history m
    | _ => keep_last history_cap (alert_history m ++ new)
    end ∧
  (triggered a = false → evaluate py_eval a ctx = true →
   callback_returns ctx (clock i) a = true →
     alerts m' !! i =
       Some {| condition := condition a; callback := callback a;
               triggered := true; triggered_at := Some (clock i);
               trigger_count := S (trigger_count a) |} ∧
     rule_events py_eval ctx (clock i) a =
       [ {| ev_condition := condition a; ev_triggered_at := Some (clock i);
            ev_trigger_count := S (trigger_count a); ev_context := ctx |} ]) ∧
  (triggered a = true →
     ∀ calls,
       alerts (evaluate_many py_eval m calls) !! i = Some a ∧
       ∀ ctx' now', rule_events py_eval ctx' now' a = []).
Proof.
  intros Hi m' new. split; [|split].
  - subst m' new. rewrite evaluate_alerts_history.
    destruct (new_events _ _ _ _ _) as [|e evs] eqn:Hnew; [done|].
    by apply record_all_closed.
  - intros Harmed Htrue Hcb. split.
    + subst m'. rewrite evaluate_alerts_lookup, Hi. simpl.
      by rewrite Htrue, Harmed.
    + unfold rule_events. by rewrite Htrue, Harmed, Hcb.
  - intros Htrig calls. split.
    + by apply evaluate_many_triggered.
    + intros ctx' now'. unfold rule_events. by rewrite Htrig, andb_false_r.
Qed.

(** The scenario of the specification on a rule without callback:
    [x > 2] under [{x: 3}] fires once. *)
Lemma alert_edge_trigger_witness :
  let a := new_alert "x > 2" None in
  let m := {| alerts := [a]; alert_history := [] |} in
  let ctx : Context := {[ "x" := Qc_of_Z 3 ]} in
  alerts (evaluate_alerts eval_x_gt_2 m ctx (λ _, 10)) !! 0%nat =
    Some {| condition := "x > 2"; callback := None; triggered := true;
            triggered_at := Some 10; trigger_count := 1 |} ∧
  rule_events eval_x_gt_2 ctx 10 a =
    [ {| ev_condition := "x > 2"; ev_triggered_at := Some 10;
         ev_trigger_count := 1; ev_context := ctx |} ].
Proof.
  intros a m ctx.
  destruct (alert_edge_trigger eval_x_gt_2 m ctx (λ _, 10) 0%nat a eq_refl)
    as (_ & Harmed & _).
  apply Harmed; reflexivity.
Defined.

(** A rule whose callback raises: the condition holds and the rule is
    armed, the rule ends up triggered with its counter at 1, and the
    history receives no event. *)
Lemma alert_raising_callback_records_nothing :
  let a := new_alert "x > 2" (Some (λ _ _, CbRaise)) in
  let m := {| alerts := [a]; alert_history := [] |} in
  let ctx : Context := {[ "x" := Qc_of_Z 3 ]} in
  let m' := evaluate_alerts eval_x_gt_2 m ctx (λ _, 10) in
  triggered a = false ∧ evaluate eval_x_gt_2 a ctx = true ∧
  triggered <$> alerts m' = [true] ∧
  trigger_count <$> alerts m' = [1%nat] ∧
  alert_history m' = [].
Proof. repeat split; reflexivity. Qed.

(** The whole scenario of the specification: fire under [{x: 3}], stay
    silent under [{x: 5}], and after an external reset fire again under
    [{x: 3}] with the counter at 2 and two events in the history. *)
Example alert_scenario :
  let ctx3 : Context := {[ "x" := Qc_of_Z 3 ]} in
  let ctx5 : Context := {[ "x" := Qc_of_Z 5 ]} in
  let m0 := {| alerts := [new_alert "x > 2" None]; alert_history := [] |} in
  let m1 := evaluate_alerts eval_x_gt_2 m0 ctx3 (λ _, 10) in
  let m2 := evaluate_alerts eval_x_gt_2 m1 ctx5 (λ _, 20) in
  let m3 := {| alerts := reset_rule <$> alerts m2;
               alert_history := alert_history m2 |} in
  let m4 := evaluate_alerts eval_x_gt_2 m3 ctx3 (λ _, 30) in
  ev_trigger_count <$> alert_history m1 = [1%nat] ∧
  m2 = m1 ∧
  trigger_count <$> alerts m4 = [2%nat] ∧
  ev_trigger_count <$> alert_history m4 = [1%nat; 2%nat] ∧
  ev_triggered_at <$> alert_history m4 = [Some 10; Some 30].
Proof. repeat split; reflexivity. Qed.

Lemma remove_matching_Forall (c : string) (als : list Alert) :
  Forall (λ a, condition a ≠ c) (remove_matching c als).
Proof.
  induction als as [|a als IH]; simpl; [constructor|].
  destruct (String.eqb_spec (condition a) c); [done|by constructor].
Qed.

Lemma remove_matching_sublist (c : string) (als : list Alert) :
  remove_matching c als `sublist_of` als.
Proof.
  induction als as [|a als IH]; simpl; [constructor|].
  destruct (String.eqb (condition a) c); by constructor.
Qed.

Lemma remove_matching_greatest (c : string) (l als : list Alert) :
  l `sublist_of` als → Forall (λ a, condition a ≠ c) l →
  l `sublist_of` remove_matching c als.
Proof.
  induction 1 as [|a l als Hsub IH|a l als Hsub IH]; intros Hall; simpl.
  - constructor.
  - inversion Hall as [|? ? Ha Hl]; subst.
    destruct (String.eqb_spec (condition a) c); [done|].
    constructor. by apply IH.
  - destruct (String.eqb (condition a) c); [by apply IH|].
    constructor. by apply IH.
Qed.

(** C10.  After [remove_alert(c)] no rule with condition [c] is left; the
    rules that remain are rules of the old list, unchanged and in their old
    relative order (a subsequence of it); nothing else was dropped (every
    subsequence of the old list that is free of [c] is still a subsequence
    of the new list, so every rule with another condition is kept, as
    often as it occurred); and the history is untouched. *)
Theorem remove_alert_removes_all (m : AlertManager) (c : string) :
  let m' := remove_alert m c in
  Forall (λ a, condition a ≠ c) (alerts m') ∧
  alerts m' `sublist_of` alerts m ∧
  (∀ l, l `sublist_of` alerts m → Forall (λ a, condition a ≠ c) l →
        l `sublist_of` alerts m') ∧
  alert_history m' = alert_history m.
Proof.
  simpl. split; [|split; [|split]].
  - apply remove_matching_Forall.
  - apply remove_matching_sublist.
  - intros l. apply remove_matching_greatest.
  - done.
Qed.

Lemma remove_alert_removes_all_witness :
  let m := {| alerts := [new_alert "a" None; new_alert "b" None;
                         new_alert "a" None];
              alert_history := [] |} in
  [new_alert "b" None] `sublist_of` alerts (remove_alert m "a").
Proof.
  intros m.
  destruct (remove_alert_removes_all m "a") as (_ & _ & Hgreatest & _).
  apply Hgreatest.
  - apply sublist_cons, sublist_skip, sublist_cons, sublist_nil.
  - repeat constructor. discriminate.
Defined.

End AlertClaims.

(* ===================================================================== *)
(** * Properties of the collector *)
(* ===================================================================== *)

Section CollectorProperties.
Import Collector.
Variable str_lower : string → string.
Variable float_of_str : string → option Qc.
Variable fromtimestamp : Qc → option Z.

Local Abbreviation message_tick :=
  (message_tick str_lower float_of_str fromtimestamp).
Local Abbreviation _normalize_tick :=
  (_normalize_tick str_lower float_of_str fromtimestamp).
Local Abbreviation _on_message :=
  (_on_message str_lower float_of_str fromtimestamp).
Local Abbreviation step := (step str_lower float_of_str fromtimestamp).
Local Abbreviation run := (run str_lower float_of_str fromtimestamp).








Lemma on_message_buffer (c : BinanceCollector) (ref : nat)
    (message : feed_message) (now_ms : Qc) :
  message_buffer (_on_message c ref message now_ms).1 =
    message_buffer c ++
      match message_tick message now_ms with
      | Some t => [(ref, t)]
      | None => []
      end.
Proof.
  unfold Collector._on_message.
  destruct (message_tick message now_ms); simpl; [done|].
  by rewrite app_nil_r.
Qed.

Lemma step_refs_below (s : System) (k : call) :
  refs_below s → refs_below (step s k).1.
Proof.
  unfold refs_below. intros Hs. destruct k as [message now_ms| | |clear|]; simpl.
  - pose proof (on_message_buffer (collector s) (next_ref s) message now_ms)
      as Hb.
    destruct (_on_message _ _ _ _) as [c notified]. simpl in *. rewrite Hb.
    apply Forall_app. split.
    + eapply Forall_impl; [done|]. simpl. lia.
    + destruct (message_tick message now_ms); repeat constructor; simpl; lia.
  - unfold start. by destruct (running (collector s)).
  - done.
  - by destruct clear; simpl.
  - done.
Qed.

Lemma run_refs_below (ks : list call) (s : System) :
  refs_below s → refs_below (run s ks).1.
Proof.
  revert s. induction ks as [|k ks IH]; intros s Hs; [done|].
  simpl. pose proof (step_refs_below s k Hs) as Hstep.
  destruct (step s k) as [s' o]. specialize (IH s' Hstep).
  by destruct (run s' ks).
Qed.

Lemma reachable_refs_below (s : System) :
  reachable str_lower float_of_str fromtimestamp s → refs_below s.
Proof.
  intros (syms & cb & ks & ->). apply run_refs_below. constructor.
Qed.

Lemma step_refs_from (n : nat) (s : System) (k : call) :
  refs_from n s →
  refs_from n (step s k).1
  ∧ Forall (λ o : TickObj, (n ≤ o.1)%nat) (drained [(step s k).2]).
Proof.
  unfold refs_from. intros [Hn Hs].
  destruct k as [message now_ms| | |clear|]; simpl.
  - pose proof (on_message_buffer (collector s) (next_ref s) message now_ms)
      as Hb.
    destruct (_on_message _ _ _ _) as [c notified]. simpl in *. rewrite Hb.
    split; [split; [lia|]|constructor].
    apply Forall_app. split; [done|].
    destruct (message_tick message now_ms); repeat constructor; simpl; lia.
  - unfold start. destruct (running (collector s)); simpl; repeat split;
      try done; try constructor.
  - repeat split; try done; try constructor.
  - rewrite app_nil_r. destruct clear; simpl; repeat split; try done;
      try constructor.
  - repeat split; try done; try constructor.
Qed.

Lemma run_refs_from (n : nat) (ks : list call) (s : System) :
  refs_from n s →
  Forall (λ o : TickObj, (n ≤ o.1)%nat) (drained (run s ks).2).
Proof.
  revert s. induction ks as [|k ks IH]; intros s Hs; [constructor|].
  simpl. destruct (step_refs_from n s k Hs) as [Hstep Hobs].
  destruct (step s k) as [s' o]. specialize (IH s' Hstep).
  destruct (run s' ks) as [s'' os]. simpl in *.
  change (drained (o :: os)) with (drained [o] ++ drained os).
  apply Forall_app. split; [|done].
  unfold drained in *. simpl in *. by rewrite app_nil_r in Hobs.
Qed.

End CollectorProperties.

(** ** Draining (C5), normalization (C6) and the lifecycle (C7) *)

Section CollectorClaims.
Import Collector.

Lemma run_refs_from_state (str_lower : string → string)
    (float_of_str : string → option Qc)
    (fromtimestamp : Qc → option Z) (n : nat) (ks : list call) (s : System) :
  refs_from n s → refs_from n (run str_lower float_of_str fromtimestamp s ks).1.
Proof.
  revert s. induction ks as [|k ks IH]; intros s Hs; [done|].
  simpl.
  destruct (step_refs_from str_lower float_of_str fromtimestamp n s k Hs) as [Hstep _].
  destruct (step _ _ _ s k) as [s' o]. specialize (IH s' Hstep).
  by destruct (run _ _ _ s' ks).
Qed.

(** C5.  In every state the collector can reach, [drain(clear=true)]
    (get_buffered_messages under the lock, one atomic step) returns exactly
    the buffered ticks and leaves an empty buffer, so [pending_count]
    (get_message_count) is 0 right after; and whatever calls follow
    (messages arriving, starts, stops, drains, counts, in any
    interleaving), no tick object handed out by that drain is handed out
    by a later drain or is found in the buffer again. *)
Theorem drain_clear_hands_over_once (str_lower : string → string)
    (float_of_str : string → option Qc)
    (fromtimestamp : Qc → option Z) (s : System) :
  reachable str_lower float_of_str fromtimestamp s →
  let r := get_buffered_messages (collector s) true in
  let s' := {| collector := r.2; next_ref := next_ref s |} in
  step str_lower float_of_str fromtimestamp s (CallDrain true) = (s', ObsDrained r.1) ∧
  r.1 = message_buffer (collector s) ∧
  message_buffer r.2 = [] ∧
  get_message_count r.2 = 0%nat ∧
  ∀ ks t, t ∈ r.1 →
    (t ∉ drained ((run str_lower float_of_str fromtimestamp s' ks).2)) ∧
    (t ∉ message_buffer (collector ((run str_lower float_of_str fromtimestamp s' ks).1))).
Proof.
  intros Hreach. simpl. do 4 (split; [done|]).
  intros ks t Ht.
  pose proof (reachable_refs_below _ _ _ s Hreach) as Hold.
  assert (refs_from (next_ref s)
            {| collector := (get_buffered_messages (collector s) true).2;
               next_ref := next_ref s |}) as Hnew
    by (split; simpl; [lia|constructor]).
  pose proof (run_refs_from str_lower float_of_str fromtimestamp _ ks _ Hnew) as Hout.
  pose proof (run_refs_from_state str_lower float_of_str fromtimestamp _ ks _ Hnew)
    as [_ Hbuf].
  unfold refs_below in Hold. rewrite Forall_forall in Hold, Hout, Hbuf.
  specialize (Hold t Ht).
  split; intros Hin; [specialize (Hout t Hin)|specialize (Hbuf t Hin)];
    simpl in *; lia.
Qed.


Lemma drain_clear_hands_over_once_witness :
  let r := get_buffered_messages (collector two_ticks_buffered) true in
  length r.1 = 2%nat ∧ get_message_count r.2 = 0%nat.
Proof.
  assert (reachable lower decimal_float utc_fromtimestamp two_ticks_buffered)
    as Hreach by (eexists _, _, _; reflexivity).
  destruct (drain_clear_hands_over_once _ _ _ _ Hreach) as (_ & _ & _ & Hc & _).
  split; [reflexivity|exact Hc].
Defined.




(** An integer is a number and still may not convert: [float] raises
    OverflowError on an [int] beyond the doubles, so a trade event whose
    price is the integer [10^400] yields no Tick. *)
Example huge_integer_price_is_dropped :
  let huge := JsonDict (<["p" := PyInt (10 ^ 400)]> trade_message) in
  py_number (PyInt (10 ^ 400)) = Some (Qc_of_Z (10 ^ 400)) ∧
  py_float decimal_float (PyInt (10 ^ 400)) = None ∧
  code_accepts decimal_float utc_fromtimestamp huge (Qc_of_Z 0) = false ∧
  message_tick lower decimal_float utc_fromtimestamp huge (Qc_of_Z 0) = None.
Proof. repeat split; vm_compute; reflexivity. Qed.

(** C7, as the code has it.  [start] on a running collector changes
    nothing (running flag, connections, buffer and the rest are as
    before) and returns [None], the very result of every call of [start]:
    the caller is handed no error. *)
Theorem start_while_running_is_silent (c : BinanceCollector) :
  running c = true →
  start c = (c, PyReturn PyNone) ∧
  ¬ reports_error (start c).2 ∧
  ∀ c0, (start c0).2 = (start c).2.
Proof.
  intros Hrun. unfold start. rewrite Hrun. simpl. repeat split.
  - intros H. by apply H.
  - intros c0. by destruct (running c0).
Qed.

Lemma start_while_running_is_silent_witness :
  let c := (start (init lower ["BTCUSDT"] None)).1 in
  start c = (c, PyReturn PyNone).
Proof.
  intros c.
  exact (proj1 (start_while_running_is_silent c eq_refl)).
Defined.

(** Starting a running collector a second time reports no error. *)
Lemma start_twice_reports_nothing :
  let c := (start (init lower ["BTCUSDT"] None)).1 in
  running c = true ∧ ¬ reports_error (start c).2.
Proof. split; [reflexivity|]. simpl. intros H. by apply H. Qed.

End CollectorClaims.

(* ===================================================================== *)
(** * Properties of the resampler *)
(* ===================================================================== *)

Section ResamplerProperties.
Import Collector Resampler.

Lemma insert_by_time_Permutation (t : Tick) (l : list Tick) :
  insert_by_time t l ≡ₚ t :: l.
Proof.
  induction l as [|u l IH]; simpl; [done|].
  destruct (timestamp t <=? timestamp u); [done|].
  rewrite IH. apply Permutation_swap.
Qed.

Lemma sort_index_Permutation (l : list Tick) : sort_index l ≡ₚ l.
Proof.
  induction l as [|t l IH]; simpl; [done|].
  unfold sort_index in *. simpl.
  by rewrite insert_by_time_Permutation, IH.
Qed.


Lemma insert_by_time_sorted (t : Tick) (l : list Tick) :
  StronglySorted time_le l → StronglySorted time_le (insert_by_time t l).
Proof.
  induction 1 as [|u l Hl IH Hu]; simpl.
  - repeat constructor.
  - destruct (Z.leb_spec (timestamp t) (timestamp u)) as [Hle|Hgt].
    + constructor; [by constructor|].
      constructor; [done|].
      eapply Forall_impl; [exact Hu|]. unfold time_le. simpl. lia.
    + constructor; [done|].
      rewrite insert_by_time_Permutation.
      constructor; [unfold time_le; lia|done].
Qed.

Lemma sort_index_sorted (l : list Tick) : StronglySorted time_le (sort_index l).
Proof.
  induction l as [|t l IH]; [constructor|].
  by apply insert_by_time_sorted.
Qed.

Lemma sorted_last_max (l : list Tick) (z : Tick) :
  StronglySorted time_le l → last l = Some z →
  ∀ t, t ∈ l → timestamp t ≤ timestamp z.
Proof.
  induction 1 as [|u l Hl IH Hu]; intros Hlast t Ht; [done|].
  destruct l as [|v l].
  - injection Hlast as <-. apply list_elem_of_singleton in Ht as ->. lia.
  - change (last (u :: v :: l)) with (last (v :: l)) in Hlast.
    apply elem_of_cons in Ht as [->|Ht]; [|by apply IH].
    rewrite Forall_forall in Hu.
    assert (z ∈ v :: l) as Hz by by apply last_Some_elem_of.
    apply (Hu z Hz).
Qed.


Lemma period_us_pos (tf : Timeframe) : 0 < period_us tf.
Proof. unfold period_us. lia. Qed.


Lemma bfill_labels (rows : list Row) :
  r_label <$> bfill rows = r_label <$> rows.
Proof. induction rows as [|r rows IH]; [done|]. simpl. f_equal. apply IH. Qed.

Lemma bfill_elem_of (rows : list Row) (x : Row) :
  x ∈ bfill rows →
  ∃ r, r ∈ rows ∧ r_label x = r_label r ∧ r_volume x = r_volume r
       ∧ r_trade_count x = r_trade_count r.
Proof.
  induction rows as [|r rows IH]; simpl; intros Hx.
  - by apply elem_of_nil in Hx.
  - apply elem_of_cons in Hx as [->|Hx].
    + exists r. repeat split. apply elem_of_cons. by left.
    + destruct (IH Hx) as (r0 & Hr0 & H0). exists r0.
      split; [|done]. apply elem_of_cons. by right.
Qed.

Lemma bin_of_steps (origin period a b : Z) :
  0 < period →
  (bin_of origin period b - bin_of origin period a) / period
  = (b - origin) / period - (a - origin) / period.
Proof.
  intros HP. unfold bin_of.
  replace (origin + (b - origin) / period * period
           - (origin + (a - origin) / period * period))
    with (((b - origin) / period - (a - origin) / period) * period) by lia.
  by rewrite Z.div_mul by lia.
Qed.

Lemma to_datetime_sorted (ticks : list Tick) (df : list Tick) :
  ticks_to_dataframe ticks = Returns df → df = sort_index ticks.
Proof.
  unfold ticks_to_dataframe. destruct ticks as [|t ticks]; [by intros [= <-]|].
  destruct (to_datetime _); [by intros [= <-]|done].
Qed.

Lemma filter_sorted (P : Tick → Prop) `{∀ t, Decision (P t)} (l : list Tick) :
  StronglySorted time_le l → StronglySorted time_le (filter P l).
Proof.
  induction 1 as [|t l Hl IH Ht]; [constructor|].
  rewrite filter_cons. case_decide; [|done].
  constructor; [done|].
  rewrite Forall_forall in Ht. apply Forall_forall.
  intros u [_ Hu]%list_elem_of_filter. by apply Ht.
Qed.

Lemma sorted_frame_range (first : Tick) (rest : list Tick) (z : Tick) :
  StronglySorted time_le (first :: rest) → last (first :: rest) = Some z →
  ∀ t, t ∈ first :: rest → timestamp first ≤ timestamp t ≤ timestamp z.
Proof.
  intros Hsorted Hlast t Ht. split; [|by eapply sorted_last_max].
  apply elem_of_cons in Ht as [->|Ht]; [lia|].
  inversion_clear Hsorted as [|? ? _ Hall].
  rewrite Forall_forall in Hall. by apply Hall.
Qed.

Section WithFloatSum.
Variable float_sum : list Qc → Qc.

(** What a call that returns has computed: the frame is the sorted input
    and the bars are its filled rows. *)
Lemma resample_returns (ticks : list Tick) (tf : Timeframe)
    (bars : list OHLCBar) :
  resample_to_ohlc float_sum ticks tf = Returns bars → ticks ≠ [] →
  ∃ first rest,
    sort_index ticks = first :: rest ∧
    bars = row_to_bar (symbol first) (timeframe_name tf)
             <$> bfill (resample_rows float_sum (period_us tf)
                          (first :: rest)).
Proof.
  intros Hres Hne. unfold resample_to_ohlc, resample_with in Hres.
  destruct ticks as [|t ticks]; [done|].
  destruct (ticks_to_dataframe (t :: ticks)) as [df|exn] eqn:Hdf; [|done].
  apply to_datetime_sorted in Hdf. subst df.
  pose proof (sort_index_Permutation (t :: ticks)) as Hperm.
  destruct (sort_index (t :: ticks)) as [|first rest].
  { by apply Permutation_nil_l in Hperm. }
  injection Hres as <-. by exists first, rest.
Qed.

(** The rows of a sorted, non-empty frame: their labels, on the grid
    anchored at midnight of the first row's day, and which ticks each
    aggregates. *)
Lemma resample_rows_spec (P : Z) (first : Tick) (rest : list Tick) :
  let df := first :: rest in
  let origin := normalize_day (timestamp first) in
  0 < P → StronglySorted time_le df →
  (∀ t, t ∈ df → bin_of origin P (timestamp t)
                   ∈ r_label <$> resample_rows float_sum P df) ∧
  NoDup (r_label <$> resample_rows float_sum P df) ∧
  (∀ r, r ∈ resample_rows float_sum P df →
     r = make_row float_sum (r_label r)
           (filter (λ t, bin_of origin P (timestamp t) = r_label r) df)).
Proof.
  intros df origin HP Hsorted.
  destruct (last df) as [z|] eqn:Hlast; [|by apply last_None in Hlast].
  assert (∀ t, t ∈ df → timestamp first ≤ timestamp t ≤ timestamp z)
    as Hrange.
  { intros t Ht. split; [|by eapply sorted_last_max].
    apply elem_of_cons in Ht as [->|Ht]; [lia|].
    inversion_clear Hsorted as [|? ? _ Hall].
    rewrite Forall_forall in Hall. by apply Hall. }
  unfold resample_rows. subst df. simpl in Hlast |- *.
  fold origin.
  replace (default first (last (first :: rest))) with z
    by (simpl in Hlast; by rewrite Hlast).
  rewrite bin_of_steps by done.
  set (lo := bin_of origin P (timestamp first)).
  rewrite <- list_fmap_compose.
  split; [|split].
  - intros t Ht. destruct (Hrange t Ht) as [Hlo Hhi].
    apply list_elem_of_fmap.
    exists ((timestamp t - origin) / P - (timestamp first - origin) / P).
    split.
    + simpl. subst lo. unfold bin_of. lia.
    + apply elem_of_seqZ.
      pose proof (Z.div_le_mono (timestamp first - origin)
                    (timestamp t - origin) P HP ltac:(lia)).
      pose proof (Z.div_le_mono (timestamp t - origin)
                    (timestamp z - origin) P HP ltac:(lia)). lia.
  - apply NoDup_fmap_2_strong; [|apply NoDup_seqZ].
    intros k1 k2 _ _. simpl. intros Heq.
    apply (Z.mul_cancel_r _ _ P); lia.
  - intros r Hr. by apply list_elem_of_fmap in Hr as (k & -> & _).
Qed.

End WithFloatSum.

End ResamplerProperties.
(** ** Buckets and volumes (C8), gap filling (C1) *)

Section ResamplerClaims.
Import Collector Resampler.




(** C1 at its own example, ticks at t = 0 (price 100) and t = 180 s
    (price 200) resampled to one minute.  The code produces four bars.
    The two empty buckets at 60 s and 120 s have volume 0 and trade count
    0, and their open, high, low and close are 200, the values of the
    bucket that FOLLOWS them ([bfill]); the close of the bucket before
    them is 100.  The sums are those of no float and of one float, which
    every summation gives as 0 and as the float. *)
Theorem gap_fill_takes_following_bar (float_sum : list Qc → Qc) :
  float_sum [] = 0%Qc → (∀ x, b64 x = x → float_sum [x] = x) →
  let p0 := Qc_of_Z 100 in
  let p1 := Qc_of_Z 200 in
  let ticks := [tick_at "btcusdt" 0 p0 (Qc_of_Z 1);
                tick_at "btcusdt" (180 * second_us) p1 (Qc_of_Z 2)] in
  ∃ bars,
    resample_to_ohlc float_sum ticks TF_1min = Returns bars ∧
    (λ b, (bar_timestamp b, open b, high b, low b, close b, trade_count b))
      <$> bars =
      [ (0, Some p0, Some p0, Some p0, Some p0, 1%nat);
        (60 * second_us, Some p1, Some p1, Some p1, Some p1, 0%nat);
        (120 * second_us, Some p1, Some p1, Some p1, Some p1, 0%nat);
        (180 * second_us, Some p1, Some p1, Some p1, Some p1, 1%nat) ] ∧
    (λ b, this (volume b)) <$> bars = [1%Q; 0%Q; 0%Q; 2%Q] ∧
    p1 ≠ p0.
Proof.
  intros Hnone Hone p0 p1 ticks.
  eexists. split; [reflexivity|].
  split; [vm_compute; reflexivity|]. split; [|discriminate].
  vm_compute. rewrite !Hnone, !Hone; [reflexivity|..];
    by apply Qc_is_canon.
Qed.

Lemma gap_fill_takes_following_bar_witness :
  let ticks := [tick_at "btcusdt" 0 (Qc_of_Z 100) (Qc_of_Z 1);
                tick_at "btcusdt" (180 * second_us) (Qc_of_Z 200)
                  (Qc_of_Z 2)] in
  ∃ bars,
    resample_to_ohlc seq_float_sum ticks TF_1min = Returns bars ∧
    (λ b, (open b, trade_count b)) <$> bars =
      [ (Some (Qc_of_Z 100), 1%nat); (Some (Qc_of_Z 200), 0%nat);
        (Some (Qc_of_Z 200), 0%nat); (Some (Qc_of_Z 200), 1%nat) ].
Proof.
  intros ticks.
  destruct (gap_fill_takes_following_bar seq_float_sum)
    as (bars & Hres & Hbars & _).
  - reflexivity.
  - intros x Hx. unfold seq_float_sum. simpl. by rewrite Qcplus_0_l.
  - exists bars. split; [exact Hres|].
    apply (f_equal (fmap (λ c, (c.1.1.1.1.2, c.2)))) in Hbars.
    rewrite <- list_fmap_compose in Hbars. exact Hbars.
Defined.

(** When the following bucket holds several ticks, a filled bar does not
    even have open = high = low = close: it repeats the four values of
    the following bar. *)
Example gap_fill_copies_four_values :
  let ticks := [tick_at "btcusdt" (180 * second_us) (Qc_of_Z 200) (Qc_of_Z 2);
                tick_at "btcusdt" (190 * second_us) (Qc_of_Z 300) (Qc_of_Z 2);
                tick_at "btcusdt" (200 * second_us) (Qc_of_Z 250) (Qc_of_Z 2);
                tick_at "btcusdt" 0 (Qc_of_Z 100) (Qc_of_Z 1)] in
  ∃ bars,
    resample_to_ohlc seq_float_sum ticks TF_1min = Returns bars ∧
    (λ b, (bar_timestamp b, open b, high b, low b, close b)) <$> bars =
      [ (0, Some (Qc_of_Z 100), Some (Qc_of_Z 100), Some (Qc_of_Z 100),
         Some (Qc_of_Z 100));
        (60 * second_us, Some (Qc_of_Z 200), Some (Qc_of_Z 300),
         Some (Qc_of_Z 200), Some (Qc_of_Z 250));
        (120 * second_us, Some (Qc_of_Z 200), Some (Qc_of_Z 300),
         Some (Qc_of_Z 200), Some (Qc_of_Z 250));
        (180 * second_us, Some (Qc_of_Z 200), Some (Qc_of_Z 300),
         Some (Qc_of_Z 200), Some (Qc_of_Z 250)) ].
Proof. eexists. split; vm_compute; reflexivity. Qed.

(** A list whose ISO strings differ in form (12:00:00 and 12:00:00.5) is
    not resampled: [pd.to_datetime] raises. *)
Example mixed_precision_raises :
  resample_to_ohlc seq_float_sum
    [tick_at "btcusdt" 0 (Qc_of_Z 100) (Qc_of_Z 1);
     tick_at "btcusdt" 500000 (Qc_of_Z 101) (Qc_of_Z 1)] TF_1min
  = Raises "ValueError".
Proof. reflexivity. Qed.

End ResamplerClaims.

(* ===================================================================== *)
(** * Properties of the analytics engine *)
(* ===================================================================== *)

Section AnalyticsProperties.
Import Analytics.
Local Open Scope Qc_scope.

Lemma qc_is_zero_spec (q : Qc) : qc_is_zero q = true ↔ q = 0.
Proof.
  unfold qc_is_zero. rewrite Qeq_bool_iff. split.
  - intros Hq. by apply Qc_is_canon.
  - by intros ->.
Qed.

Lemma qc_is_zero_false (q : Qc) : qc_is_zero q = false ↔ q ≠ 0.
Proof.
  rewrite <- qc_is_zero_spec. by destruct (qc_is_zero q).
Qed.

Lemma qc_of_nat_S (n : nat) : qc_of_nat (S n) = 1 + qc_of_nat n.
Proof.
  unfold qc_of_nat. rewrite Nat2Z.inj_succ, <- Z.add_1_l, Z2Qc_inj_add.
  by rewrite Z2Qc_inj_1.
Qed.

Lemma qc_of_nat_nonzero (n : nat) : (1 ≤ n)%nat → qc_of_nat n ≠ 0.
Proof.
  intros Hn Heq. unfold qc_of_nat in Heq.
  rewrite <- Z2Qc_inj_0 in Heq. apply Z2Qc_inj in Heq. lia.
Qed.

Lemma qc_sum_replicate (n : nat) (c : Qc) :
  qc_sum (replicate n c) = qc_of_nat n * c.
Proof.
  induction n as [|n IH].
  - unfold qc_of_nat. change (Z.of_nat 0) with 0%Z. rewrite Z2Qc_inj_0.
    simpl. ring.
  - simpl. rewrite IH, qc_of_nat_S. ring.
Qed.

Lemma mean_replicate (n : nat) (c : Qc) :
  (1 ≤ n)%nat → mean (replicate n c) = c.
Proof.
  intros Hn. unfold mean. rewrite qc_sum_replicate, length_replicate.
  rewrite Qcmult_comm. apply Qcdiv_mult_l. by apply qc_of_nat_nonzero.
Qed.

Lemma qc_sum_zeros (l : list Qc) : Forall (λ x, x = 0) l → qc_sum l = 0.
Proof.
  induction 1 as [|x l -> _ IH]; simpl; [done|]. rewrite IH. ring.
Qed.

Lemma ss_dev_replicate (n : nat) (c : Qc) :
  (1 ≤ n)%nat → ss_dev (replicate n c) = 0.
Proof.
  intros Hn. unfold ss_dev. rewrite mean_replicate by done.
  apply qc_sum_zeros. apply Forall_fmap, Forall_forall.
  intros x [-> _]%elem_of_replicate.
  unfold compose, qc_sq. ring.
Qed.

Lemma fsqrt_zero : qc_is_zero (fsqrt 0) = true.
Proof. reflexivity. Qed.

Lemma window_at_replicate (W n i : nat) (c : Qc) :
  (i < n)%nat →
  window_at W (replicate n (Some c)) i =
    if decide (1 ≤ W ∧ W ≤ S i)%nat then Some (replicate W c) else None.
Proof.
  intros Hi. unfold window_at. case_decide as HW; [|done].
  rewrite drop_replicate, take_replicate.
  replace (W `min` (n - (S i - W)))%nat with W by lia.
  apply mapM_Some. apply Forall2_replicate. done.
Qed.

(** One cell of the z-score of a constant series: the window is missing
    or holds [W] copies of the constant. *)
Lemma zscore_cell_constant (W : nat) (c : Qc) (w : option (list Qc)) :
  (1 ≤ W)%nat → w = None ∨ w = Some (replicate W c) →
  cell_div (cell_sub (Some c) (mean <$> w)) (w ≫= sample_std) = NaN.
Proof.
  intros HW [-> | ->]; [done|]. simpl.
  rewrite mean_replicate by done.
  unfold sample_std. rewrite length_replicate.
  case_decide as H1; [done|]. simpl.
  rewrite ss_dev_replicate by done.
  replace (c - c) with 0 by ring.
  replace (0 / qc_of_nat (W - 1)) with 0 by (unfold Qcdiv; ring).
  unfold cell_div. by rewrite fsqrt_zero.
Qed.

Lemma zip_replicate_nan (series : Series (option Qc)) :
  zip (series.*1) (replicate (length series) NaN)
    = (λ p, (p.1, NaN)) <$> series.
Proof.
  induction series as [|[t v] series IH]; [done|].
  simpl. f_equal. exact IH.
Qed.

Lemma zscore_cells_constant (W n : nat) (c : Qc) :
  (1 ≤ W)%nat →
  let vals := replicate n (Some c) in
  zip_with cell_div (zip_with cell_sub vals (rolling_mean W vals))
    (rolling_std W vals) = replicate n NaN.
Proof.
  intros HW vals. apply list_eq. intros i.
  unfold rolling_mean, rolling_std.
  rewrite !lookup_zip_with, !list_lookup_imap.
  destruct (decide (i < n)%nat) as [Hi|Hi].
  - subst vals. rewrite !lookup_replicate_2 by done. simpl. f_equal.
    refine (zscore_cell_constant W c _ HW _).
    rewrite window_at_replicate by done. case_decide; auto.
  - subst vals.
    assert (replicate n (Some c) !! i = None) as ->
      by (apply lookup_replicate_None; lia).
    assert (replicate n NaN !! i = None) as ->
      by (apply lookup_replicate_None; lia).
    done.
Qed.

End AnalyticsProperties.

(** ** Z-score of a constant series (C3), degenerate hedge ratio (C4),
    short series in the stationarity test (C9) *)

Section AnalyticsClaims.
Import Analytics.
Local Open Scope Qc_scope.

(** C3, as the code has it.  For a constant series at least as long as
    the window [W >= 1], [compute_zscore] returns a series over the same
    index, of the same length, in which every value is NaN: the missing
    value of pandas, from the incomplete windows at the first [W - 1]
    positions and from the division [0 / 0] by the zero deviation
    everywhere else.  The series is not empty, no value is a number or an
    infinity, and the zero deviation is not treated apart. *)
Theorem zscore_constant_all_nan (series : Series (option Qc)) (c : Qc)
    (W : nat) :
  (1 ≤ W ≤ length series)%nat →
  values series = replicate (length series) (Some c) →
  compute_zscore series W = (λ p, (p.1, NaN)) <$> series ∧
  length (compute_zscore series W) = length series.
Proof.
  intros [HW Hlen] Hconst.
  assert (compute_zscore series W = (λ p, (p.1, NaN)) <$> series) as Heq.
  { unfold compute_zscore. case_decide; [lia|].
    rewrite Hconst, zscore_cells_constant by done.
    apply zip_replicate_nan. }
  split; [done|]. by rewrite Heq, length_fmap.
Qed.


Lemma zscore_constant_all_nan_witness :
  compute_zscore three_ones 2 = [(0%Z, NaN); (1%Z, NaN); (2%Z, NaN)].
Proof.
  refine (proj1 (zscore_constant_all_nan three_ones (Qc_of_Z 1) 2 _ _)).
  - simpl. lia.
  - reflexivity.
Defined.

(** The z-score of the constant series 1, 1, 1 with window 2 is not
    empty, and NaN is what it holds. *)
Lemma zscore_constant_not_empty :
  compute_zscore three_ones 2 ≠ [] ∧
  Exists (λ p, p.2 = NaN) (compute_zscore three_ones 2).
Proof.
  split; [by vm_compute|]. apply Exists_cons_hd. by vm_compute.
Qed.




(** Coefficients a few units in the last place off the exact line of
    A = 5, 5 against B = 1, 2, an intercept of 4.999999999999998 and a
    slope of 1.62e-16, are kept as they are, with [r_squared] 0. *)
Example hedge_ratio_flat_A_as_numpy :
  compute_hedge_ratio
    (λ _ _, Some (0x1.3fffffffffffep+2%float, 0x1.758bebd8e1da5p-53%float))
    nansum nanmean flat_A64 rising_B64 "ols" =
  {| hedge_ratio := 0x1.758bebd8e1da5p-53%float;
     intercept := 0x1.3fffffffffffep+2%float;
     r_squared := 0%float; Analytics.method := "ols" |}.
Proof. vm_compute. reflexivity. Qed.

(** C9.  Whatever [adfuller] would do, a series with fewer than 10
    non-missing observations gets the sentinel: statistic 0, p-value 1,
    no critical values, not stationary.  [compute_adf_test] is a total
    function: it returns on every series. *)
Theorem adf_short_series_sentinel
    (adfuller : list Qc → option (Qc * Qc * (Qc * Qc * Qc)))
    (series : Series (option Qc)) :
  (length (dropna series) < 10)%nat →
  compute_adf_test adfuller series =
    {| adf_statistic := 0; pvalue := 1; critical_values := ∅;
       is_stationary := false |}.
Proof.
  intros Hshort. unfold compute_adf_test.
  case_decide; [done|]. case_decide; [done|lia].
Qed.

Lemma adf_short_series_sentinel_witness :
  compute_adf_test (λ _, None) three_ones = adf_sentinel.
Proof.
  apply adf_short_series_sentinel. simpl. lia.
Defined.

End AnalyticsClaims.

(* ===================================================================== *)
(** * Further properties of the alert engine *)
(* ===================================================================== *)

Section AlertExtras.
Import Alerts.

(** X1.  The history is a bounded log.  After a refresh cycle the history is a
    suffix of the old history followed by the new events (only oldest
    entries are ever dropped); a history within the cap of 1000 stays
    within it; and a cycle that records at least one event leaves exactly
    the newest [min 1000 (old + new)] entries. *)
Theorem alert_history_bounded (py_eval : string → Context → option bool)
    (m : AlertManager) (ctx : Context) (clock : nat → Z) :
  let m' := evaluate_alerts py_eval m ctx clock in
  let new := new_events py_eval ctx clock 0 (alerts m) in
  alert_history m' `suffix_of` (alert_history m ++ new) ∧
  ((length (alert_history m) ≤ history_cap)%nat →
     (length (alert_history m') ≤ history_cap)%nat) ∧
  (new ≠ [] →
     length (alert_history m') =
       (history_cap `min` (length (alert_history m) + length new))%nat).
Proof.
  intros m' new. subst m'. rewrite evaluate_alerts_history. fold new.
  destruct new as [|e evs] eqn:Hnew.
  - simpl. rewrite app_nil_r. repeat split; [done..|by intros []].
  - rewrite record_all_closed by done. rewrite keep_last_drop.
    split; [apply suffix_drop|]. split.
    + intros _. rewrite length_drop. lia.
    + intros _. rewrite length_drop, length_app. lia.
Qed.

Lemma alert_history_bounded_witness :
  let m := {| alerts := [new_alert "x > 2" None]; alert_history := [] |} in
  let ctx : Context := {[ "x" := Qc_of_Z 3 ]} in
  length (alert_history (evaluate_alerts eval_x_gt_2 m ctx (λ _, 10)))
    = 1%nat.
Proof.
  intros m ctx.
  destruct (alert_history_bounded eval_x_gt_2 m ctx (λ _, 10))
    as (_ & _ & Hlen).
  apply Hlen. discriminate.
Defined.

(** X2.  A refresh cycle never adds, drops or reorders rules and never touches
    a condition or a callback.  A rule changes only if it was armed and
    its condition evaluated to true without raising; then it is the rule
    as fired.  So a rule is never un-triggered and its counter never
    decreases, whatever the other rules do. *)
Theorem evaluate_alerts_frame (py_eval : string → Context → option bool)
    (m : AlertManager) (ctx : Context) (clock : nat → Z) :
  let m' := evaluate_alerts py_eval m ctx clock in
  length (alerts m') = length (alerts m) ∧
  condition <$> alerts m' = condition <$> alerts m ∧
  ∀ i a, alerts m !! i = Some a →
    ∃ a', alerts m' !! i = Some a' ∧
      callback a' = callback a ∧
      (triggered a = true → triggered a' = true) ∧
      (trigger_count a ≤ trigger_count a' ≤ S (trigger_count a))%nat ∧
      (a' = a ∨
       (triggered a = false ∧ py_eval (condition a) ctx = Some true ∧
        a' = fired (clock i) a)).
Proof.
  intros m'.
  assert (∀ i, alerts m' !! i =
            (λ a, if evaluate py_eval a ctx && negb (triggered a)
                  then fired (clock i) a else a) <$> alerts m !! i) as Hlook
    by (intros i; apply evaluate_alerts_lookup).
  assert (length (alerts m') = length (alerts m)) as Hlen.
  { destruct (decide (length (alerts m') = length (alerts m))) as [|Hne];
      [done|exfalso].
    destruct (decide (length (alerts m') < length (alerts m))%nat).
    - pose proof (Hlook (length (alerts m'))) as H.
      rewrite (lookup_ge_None_2 (alerts m')) in H by lia.
      destruct (lookup_lt_is_Some_2 (alerts m) (length (alerts m')))
        as [x Hx]; [lia|]. by rewrite Hx in H.
    - pose proof (Hlook (length (alerts m))) as H.
      rewrite (lookup_ge_None_2 (alerts m)) in H by lia.
      destruct (lookup_lt_is_Some_2 (alerts m') (length (alerts m)))
        as [x Hx]; [lia|]. by rewrite Hx in H. }
  split; [done|]. split.
  - apply list_eq. intros i. rewrite !list_lookup_fmap, Hlook.
    destruct (alerts m !! i) as [a|]; [|done]. simpl.
    by destruct (evaluate py_eval a ctx && negb (triggered a)).
  - intros i a Hi. rewrite Hlook, Hi. simpl.
    unfold evaluate.
    destruct (py_eval (condition a) ctx) as [[]|] eqn:Heval; simpl;
      try (exists a; repeat split; auto; lia).
    destruct (triggered a) eqn:Htrig; simpl;
      [exists a; repeat split; auto; lia|].
    exists (fired (clock i) a). simpl. repeat split; auto.
Qed.

Lemma evaluate_alerts_frame_witness :
  let a := new_alert "y > 1" None in
  let m := {| alerts := [a]; alert_history := [] |} in
  let ctx : Context := {[ "x" := Qc_of_Z 3 ]} in
  alerts (evaluate_alerts eval_x_gt_2 m ctx (λ _, 10)) !! 0%nat = Some a.
Proof.
  intros a m ctx.
  destruct (evaluate_alerts_frame eval_x_gt_2 m ctx (λ _, 10))
    as (_ & _ & Hrule).
  destruct (Hrule 0%nat a eq_refl) as (a' & Ha' & _ & _ & _ & [-> | Hfired]).
  - exact Ha'.
  - destruct Hfired as (_ & Heval & _). discriminate Heval.
Defined.

Lemma remove_matching_absent (c : string) (als : list Alert) :
  Forall (λ a, condition a ≠ c) als → remove_matching c als = als.
Proof.
  induction 1 as [|a als Ha _ IH]; simpl; [done|].
  destruct (String.eqb_spec (condition a) c); [done|]. by rewrite IH.
Qed.

Lemma remove_matching_app (c : string) (l1 l2 : list Alert) :
  remove_matching c (l1 ++ l2) = remove_matching c l1 ++ remove_matching c l2.
Proof.
  induction l1 as [|a l1 IH]; simpl; [done|].
  destruct (String.eqb (condition a) c); simpl; by rewrite IH.
Qed.

(** X3.  Adding and removing rules.  [add_alert] puts a new armed rule with
    counter 0 at the end, and [remove_alert] is idempotent.  Removing the
    condition just added gives the manager with that condition removed;
    when the manager held no rule with that condition, adding and then
    removing restores it exactly. *)
Theorem add_then_remove_alert (m : AlertManager) (c : string)
    (cb : option (AlertView → Context → cb_outcome)) :
  alerts (add_alert m c cb).1 =
    alerts m ++ [ {| condition := c; callback := cb; triggered := false;
                     triggered_at := None; trigger_count := 0 |} ] ∧
  remove_alert (add_alert m c cb).1 c = remove_alert m c ∧
  remove_alert (remove_alert m c) c = remove_alert m c ∧
  (Forall (λ a, condition a ≠ c) (alerts m) →
     remove_alert (add_alert m c cb).1 c = m).
Proof.
  assert (remove_alert (add_alert m c cb).1 c = remove_alert m c) as Hrm.
  { unfold remove_alert, add_alert. simpl. f_equal.
    rewrite remove_matching_app. simpl. rewrite String.eqb_refl.
    by rewrite app_nil_r. }
  split; [done|]. split; [done|]. split.
  - unfold remove_alert. simpl. f_equal.
    apply remove_matching_absent, remove_matching_Forall.
  - intros Habsent. rewrite Hrm. unfold remove_alert.
    rewrite remove_matching_absent by done. by destruct m.
Qed.

Lemma add_then_remove_alert_witness :
  let m := {| alerts := [new_alert "b" None]; alert_history := [] |} in
  remove_alert (add_alert m "a" None).1 "a" = m.
Proof.
  intros m.
  destruct (add_then_remove_alert m "a" None) as (_ & _ & _ & Hback).
  apply Hback. repeat constructor. discriminate.
Defined.

(** X4.  [get_alert_history(limit)] is the slice [alert_history[-limit:]].  For
    a positive limit it is the newest [min limit len] events.  A limit of
    0 does not give an empty list: [[-0:]] is the whole history.  A
    negative limit drops the oldest [-limit] events. *)
Theorem get_alert_history_limit (m : AlertManager) (limit : Z) :
  let h := alert_history m in
  let r := get_alert_history m limit in
  r `suffix_of` h ∧
  (0 < limit → length r = (Z.to_nat limit `min` length h)%nat) ∧
  (limit = 0 → r = h) ∧
  (limit < 0 → r = drop (Z.to_nat (- limit)) h).
Proof.
  intros h r. subst r. unfold get_alert_history, slice_from. fold h.
  split; [apply suffix_drop|]. split; [|split].
  - intros Hpos. rewrite length_drop.
    destruct (Z.ltb_spec (- limit) 0); lia.
  - intros ->. simpl. by rewrite Z.min_l by lia.
  - intros Hneg. destruct (Z.ltb_spec (- limit) 0); [lia|].
    destruct (decide (- limit ≤ Z.of_nat (length h))).
    + by rewrite Z.min_l by done.
    + rewrite Z.min_r by lia. rewrite Nat2Z.id.
      rewrite drop_all. symmetry. apply drop_ge. lia.
Qed.

Lemma get_alert_history_limit_witness :
  let ctx : Context := {[ "x" := Qc_of_Z 3 ]} in
  let m := evaluate_alerts eval_x_gt_2
             {| alerts := [new_alert "x > 2" None]; alert_history := [] |}
             ctx (λ _, 10) in
  get_alert_history m 0 = alert_history m.
Proof.
  intros ctx m.
  destruct (get_alert_history_limit m 0) as (_ & _ & Hzero & _).
  by apply Hzero.
Defined.

End AlertExtras.

(* ===================================================================== *)
(** * Further properties of the collector *)
(* ===================================================================== *)

Section CollectorExtras.
Import Collector.
Variable str_lower : string → string.
Variable float_of_str : string → option Qc.
Variable fromtimestamp : Qc → option Z.

Lemma step_static (s : System) (k : call) :
  symbols (collector (step str_lower float_of_str fromtimestamp s k).1)
    = symbols (collector s)
  ∧ on_message_callback (collector (step str_lower float_of_str fromtimestamp s k).1)
    = on_message_callback (collector s).
Proof.
  destruct k as [message now_ms| | |clear|]; simpl; try done.
  - unfold _on_message. by destruct (message_tick _ _ _ _ _).
  - unfold start. by destruct (running (collector s)).
  - by destruct clear.
Qed.

Lemma step_connections (s : System) (k : call) :
  let open c :=
    ws_connections c =
      if running c then _create_connection <$> symbols c else [] in
  open (collector s) → open (collector (step str_lower float_of_str fromtimestamp s k).1).
Proof.
  intros open Hs. subst open. simpl in *.
  destruct k as [message now_ms| | |clear|]; simpl; try done.
  - unfold _on_message. by destruct (message_tick _ _ _ _ _).
  - unfold start. destruct (running (collector s)) eqn:Hrun; simpl; [|done].
    by rewrite Hrun.
  - by destruct clear.
Qed.

End CollectorExtras.

Section CollectorExtraTheorems.
Import Collector.

(** X5.  Every tick is handed out exactly once, in order of arrival.  Along any
    sequence of calls in which every drain clears, the ticks returned by
    the drains, in order, followed by what is left in the buffer, are
    exactly the ticks that were in the buffer at the start followed by the
    ticks the messages brought in: nothing is lost, duplicated or
    reordered, whatever starts and stops are interleaved (a message that
    arrives after [stop] is buffered like any other). *)
Theorem collector_hands_out_in_order (str_lower : string → string)
    (float_of_str : string → option Qc)
    (fromtimestamp : Qc → option Z) (s : System) (ks : list call) :
  Forall (λ k, k ≠ CallDrain false) ks →
  let r := run str_lower float_of_str fromtimestamp s ks in
  drained r.2 ++ message_buffer (collector r.1) =
    message_buffer (collector s)
      ++ accepted str_lower float_of_str fromtimestamp (next_ref s) ks.
Proof.
  intros Hks. revert s.
  induction Hks as [|k ks Hk _ IH]; intros s; simpl.
  { by rewrite app_nil_r. }
  specialize (IH (step str_lower float_of_str fromtimestamp s k).1).
  destruct k as [message now_ms| | |clear|]; simpl in *.
  - pose proof (on_message_buffer str_lower float_of_str fromtimestamp (collector s)
                  (next_ref s) message now_ms) as Hb.
    destruct (_on_message _ _ _ _ _ _ _) as [c notified]. simpl in *.
    destruct (run _ _ _ _ ks) as [s'' os]. simpl in *.
    change (drained (ObsNotified notified :: os)) with (drained os).
    rewrite IH, Hb. by rewrite <- app_assoc.
  - unfold start in *. destruct (running (collector s)); simpl in *;
      destruct (run _ _ _ _ ks) as [s'' os]; simpl in *; exact IH.
  - destruct (run _ _ _ _ ks) as [s'' os]. simpl in *. exact IH.
  - destruct clear; [|done]. simpl in *.
    destruct (run _ _ _ _ ks) as [s'' os]. simpl in *.
    change (drained (ObsDrained (message_buffer (collector s)) :: os))
      with (message_buffer (collector s) ++ drained os).
    by rewrite <- app_assoc, IH.
  - destruct (run _ _ _ s ks) as [s'' os]. simpl in *. exact IH.
Qed.

Lemma collector_hands_out_in_order_witness :
  let s0 := {| collector := init lower ["BTCUSDT"] None; next_ref := 0 |} in
  let ks := [CallOnMessage (JsonDict trade_message) (Qc_of_Z 0);
             CallDrain true; CallStop;
             CallOnMessage (JsonDict trade_message) (Qc_of_Z 0)] in
  let r := run lower decimal_float utc_fromtimestamp s0 ks in
  (drained r.2 ++ message_buffer (collector r.1)).*1 = [0%nat; 1%nat].
Proof.
  intros s0 ks r. subst r.
  rewrite (collector_hands_out_in_order lower decimal_float utc_fromtimestamp s0 ks).
  - reflexivity.
  - repeat constructor; discriminate.
Defined.

Lemma notified_in_append_order (str_lower : string → string)
    (float_of_str : string → option Qc)
    (fromtimestamp : Qc → option Z) (s : System) (ks : list call) :
  notified (run str_lower float_of_str fromtimestamp s ks).2 =
    match on_message_callback (collector s) with
    | Some consumer =>
        (λ o, (consumer, o))
          <$> accepted str_lower float_of_str fromtimestamp (next_ref s) ks
    | None => []
    end.
Proof.
  revert s. induction ks as [|k ks IH]; intros s.
  - simpl. by destruct (on_message_callback (collector s)).
  - change (run str_lower float_of_str fromtimestamp s (k :: ks))
      with (let '(s', o) := step str_lower float_of_str fromtimestamp s k in
            let '(s'', os) :=
              run str_lower float_of_str fromtimestamp s' ks in
            (s'', o :: os)).
    pose proof (step_static str_lower float_of_str fromtimestamp s k)
      as [_ Hcb].
    specialize (IH (step str_lower float_of_str fromtimestamp s k).1).
    rewrite Hcb in IH.
    destruct k as [message now_ms| | |clear|]; simpl in *.
    + unfold _on_message in *.
      destruct (message_tick str_lower float_of_str fromtimestamp message
                  now_ms)
        as [t|]; simpl in *;
        destruct (run _ _ _ _ ks) as [s'' os]; simpl in *;
        unfold notified in *; simpl; rewrite IH;
        by destruct (on_message_callback (collector s)).
    + unfold start in *.
      destruct (running (collector s)); simpl in *;
        destruct (run _ _ _ _ ks) as [s'' os]; simpl in *; exact IH.
    + destruct (run _ _ _ _ ks) as [s'' os]; simpl in *; exact IH.
    + destruct clear; simpl in *;
        destruct (run _ _ _ _ ks) as [s'' os]; simpl in *; exact IH.
    + destruct (run _ _ _ s ks) as [s'' os]; simpl in *; exact IH.
Qed.

(** X6.  The consumer sees what is buffered.  The calls to the consumer
    that a sequence of calls leads to are, up to their order, one call of
    the consumer given at construction for every tick that a message
    brings in, with the very object that goes into the buffer; without a
    consumer no call is made.  The order is left open: the consumer runs
    after the lock is released, so two socket threads may call it in
    another order than they appended.  Starting, stopping and draining
    neither call the consumer nor change it. *)
Theorem consumer_notified_of_each_tick (str_lower : string → string)
    (float_of_str : string → option Qc)
    (fromtimestamp : Qc → option Z) (s : System) (ks : list call) :
  notified (run str_lower float_of_str fromtimestamp s ks).2 ≡ₚ
    match on_message_callback (collector s) with
    | Some consumer =>
        (λ o, (consumer, o))
          <$> accepted str_lower float_of_str fromtimestamp (next_ref s) ks
    | None => []
    end.
Proof. by rewrite notified_in_append_order. Qed.

(** X7.  The lifecycle invariant.  After any sequence of calls on a
    collector built for [syms]: the symbols are [syms] as [str.lower]
    returns them, the consumer is the one given at construction, and the
    connections are open exactly while the collector is running, one per
    symbol on the stream of its lower-cased name, in subscription order.
    No call other than [start] and [stop] touches the running flag or the
    connections. *)
Theorem collector_lifecycle_invariant (str_lower : string → string)
    (float_of_str : string → option Qc)
    (fromtimestamp : Qc → option Z) (syms : list string) (cb : option nat)
    (ks : list call) :
  let c := collector
             (run str_lower float_of_str fromtimestamp
                {| collector := init str_lower syms cb; next_ref := 0 |}
                ks).1 in
  symbols c = str_lower <$> syms ∧
  on_message_callback c = cb ∧
  ws_connections c =
    if running c
    then (λ x, _create_connection (str_lower x)) <$> syms else [].
Proof.
  intros c.
  assert (∀ s,
            let c' :=
              collector (run str_lower float_of_str fromtimestamp s ks).1 in
            symbols c' = symbols (collector s) ∧
            on_message_callback c' = on_message_callback (collector s) ∧
            (ws_connections (collector s) =
               (if running (collector s)
                then _create_connection <$> symbols (collector s) else []) →
             ws_connections c' =
               if running c' then _create_connection <$> symbols c' else []))
    as Hrun.
  { induction ks as [|k ks IH]; intros s; simpl; [done|].
    destruct (step_static str_lower float_of_str fromtimestamp s k)
      as [Hs Hc].
    pose proof (step_connections str_lower float_of_str fromtimestamp s k)
      as Hw.
    destruct (step _ _ _ s k) as [s' o]. simpl in *.
    specialize (IH s').
    destruct (run _ _ _ s' ks) as [s'' os]. simpl in *.
    destruct IH as (IH1 & IH2 & IH3).
    rewrite IH1, IH2, Hs, Hc. repeat split; try done.
    intros Hopen. rewrite <- Hs, <- IH1. apply IH3, Hw, Hopen. }
  destruct (Hrun {| collector := init str_lower syms cb; next_ref := 0 |})
    as (H1 & H2 & H3).
  fold c in H1, H2, H3. simpl in *.
  split; [done|]. split; [done|].
  rewrite (H3 eq_refl), H1. destruct (running c); [|done].
  by rewrite <- list_fmap_compose.
Qed.

(** X8.  Where the timestamp of a tick comes from.  When the message carries a
    trade time [T], the tick does not depend on the event time [E] nor on
    the local clock; a [T] that is not a number makes the message fail
    even when [E] is a good timestamp (it is not a fallback for a bad
    [T]).  When there is no [T] but an [E], the tick does not depend on the
    local clock. *)
Theorem timestamp_fallback_order (str_lower : string → string)
    (float_of_str : string → option Qc)
    (fromtimestamp : Qc → option Z) (d : gmap string pyval) (v : pyval) :
  (d !! "T" = Some v →
     (∀ e now now',
        _normalize_tick str_lower float_of_str fromtimestamp (<["E" := e]> d) now'
          = _normalize_tick str_lower float_of_str fromtimestamp d now) ∧
     (py_number v = None →
        ∀ now, _normalize_tick str_lower float_of_str fromtimestamp d now = None)) ∧
  (d !! "T" = None → d !! "E" = Some v →
     ∀ now now',
       _normalize_tick str_lower float_of_str fromtimestamp d now'
         = _normalize_tick str_lower float_of_str fromtimestamp d now).
Proof.
  split.
  - intros HT. split.
    + intros e now now'. unfold _normalize_tick, dict_get.
      rewrite !lookup_insert_ne by done. by rewrite HT.
    + intros Hv now. unfold _normalize_tick, py_div_1000, dict_get.
      by rewrite HT, Hv.
  - intros HT HE now now'. unfold _normalize_tick, dict_get.
    by rewrite HT, HE.
Qed.

Lemma timestamp_fallback_order_witness :
  _normalize_tick lower decimal_float utc_fromtimestamp
    (<["T" := PyNone]> trade_message) (Qc_of_Z 0) = None.
Proof.
  destruct (timestamp_fallback_order lower decimal_float utc_fromtimestamp
              (<["T" := PyNone]> trade_message) PyNone) as [HT _].
  destruct (HT eq_refl) as [_ Hbad].
  by apply Hbad.
Defined.

End CollectorExtraTheorems.

(* ===================================================================== *)
(** * Further properties of the resampler *)
(* ===================================================================== *)

Section ResamplerExtras.
Import Collector Resampler.

Lemma bfill_length (rows : list Row) : length (bfill rows) = length rows.
Proof. induction rows as [|r rows IH]; simpl; [done|]. by rewrite IH. Qed.

Lemma bfill_counts (rows : list Row) :
  r_trade_count <$> bfill rows = r_trade_count <$> rows.
Proof. induction rows as [|r rows IH]; [done|]. simpl. f_equal. apply IH. Qed.

Lemma or_next_is_Some (x next : option Qc) :
  is_Some x ∨ is_Some next → is_Some (or_next x next).
Proof. destruct x; simpl; [by eauto|]. by intros [[? [=]]|?]. Qed.

Lemma bfill_cons (r : Row) (rest : list Row) :
  bfill (r :: rest) =
    {| r_label := r_label r;
       r_open := or_next (r_open r) (head (bfill rest) ≫= r_open);
       r_high := or_next (r_high r) (head (bfill rest) ≫= r_high);
       r_low := or_next (r_low r) (head (bfill rest) ≫= r_low);
       r_close := or_next (r_close r) (head (bfill rest) ≫= r_close);
       r_volume := r_volume r;
       r_trade_count := r_trade_count r |} :: bfill rest.
Proof. done. Qed.

(** Backward filling leaves no NaN above a defined last row. *)
Lemma bfill_defined (rows : list Row) (z : Row) :
  last rows = Some z → row_defined z → Forall row_defined (bfill rows).
Proof.
  intros Hlast Hz. induction rows as [|r rows IH]; [done|].
  destruct rows as [|r' rows].
  - injection Hlast as ->. destruct Hz as (Ho & Hh & Hl & Hc). simpl.
    repeat constructor; simpl; apply or_next_is_Some; by left.
  - rewrite last_cons_cons in Hlast. specialize (IH Hlast).
    rewrite bfill_cons.
    destruct (bfill (r' :: rows)) as [|x xs] eqn:Hx.
    { apply (f_equal length) in Hx. rewrite bfill_length in Hx. done. }
    constructor; [|exact IH].
    inversion_clear IH as [|? ? (Ho & Hh & Hl & Hc) _].
    repeat split; simpl; apply or_next_is_Some; by right.
Qed.

(** A populated row keeps its own four prices under backward filling. *)
Lemma bfill_populated (rows : list Row) (x : Row) :
  x ∈ bfill rows →
  ∃ r, r ∈ rows ∧ r_label x = r_label r
       ∧ r_trade_count x = r_trade_count r
       ∧ (row_defined r →
            r_open x = r_open r ∧ r_high x = r_high r
            ∧ r_low x = r_low r ∧ r_close x = r_close r).
Proof.
  induction rows as [|r rows IH]; simpl; intros Hx.
  - by apply elem_of_nil in Hx.
  - apply elem_of_cons in Hx as [->|Hx].
    + exists r. split; [apply elem_of_cons; by left|]. simpl.
      repeat split; destruct H as ([? Ho] & [? Hh] & [? Hl] & [? Hc]);
        by rewrite ?Ho, ?Hh, ?Hl, ?Hc.
    + destruct (IH Hx) as (r0 & Hr0 & H0). exists r0.
      split; [|done]. apply elem_of_cons. by right.
Qed.

Lemma group_defined (float_sum : list Qc → Qc) (label : Z) (g : list Tick) :
  g ≠ [] → row_defined (make_row float_sum label g).
Proof.
  intros Hg. destruct g as [|t g]; [done|].
  unfold row_defined, make_row, group_open, group_close. simpl.
  repeat split; try by eexists.
  destruct (last (t :: g)) eqn:Hl; [by eexists|].
  by apply last_None in Hl.
Qed.

Lemma qc_leb_spec (a b : Qc) : qc_leb a b = true ↔ (a ≤ b)%Qc.
Proof. unfold qc_leb. by rewrite Qle_bool_iff. Qed.

Lemma qc_leb_total (a b : Qc) : qc_leb a b = false → (b ≤ a)%Qc.
Proof.
  intros H. destruct (Qclt_le_dec a b) as [Hlt|Hle]; [|done].
  apply Qclt_le_weak, qc_leb_spec in Hlt. congruence.
Qed.

(** The running maximum of [group_high]: one of the prices, above all. *)
Lemma foldl_qc_max (p0 : Qc) (g : list Tick) :
  let h := foldl (λ m u, qc_max m (price u)) p0 g in
  (h = p0 ∨ ∃ u, u ∈ g ∧ h = price u) ∧
  (p0 ≤ h)%Qc ∧ ∀ u, u ∈ g → (price u ≤ h)%Qc.
Proof.
  revert p0. induction g as [|t g IH]; intros p0; simpl.
  { split; [by left|]. split; [apply Qcle_refl|]. by intros ? ?%elem_of_nil. }
  destruct (IH (qc_max p0 (price t))) as (Hin & Hle & Hall).
  assert ((p0 ≤ qc_max p0 (price t))%Qc ∧ (price t ≤ qc_max p0 (price t))%Qc
          ∧ (qc_max p0 (price t) = p0 ∨ qc_max p0 (price t) = price t))
    as (H0 & Ht & Hsel).
  { unfold qc_max. destruct (qc_leb p0 (price t)) eqn:Hc.
    - apply qc_leb_spec in Hc. repeat split; [done|apply Qcle_refl|by right].
    - apply qc_leb_total in Hc. repeat split; [apply Qcle_refl|done|by left]. }
  split; [|split].
  - destruct Hin as [->|(u & Hu & ->)].
    + destruct Hsel as [->| ->]; [by left|].
      right. exists t. split; [apply elem_of_cons; by left|done].
    + right. exists u. split; [apply elem_of_cons; by right|done].
  - by eapply Qcle_trans.
  - intros u [->|Hu]%elem_of_cons; [by eapply Qcle_trans|by apply Hall].
Qed.

Lemma foldl_qc_min (p0 : Qc) (g : list Tick) :
  let h := foldl (λ m u, qc_min m (price u)) p0 g in
  (h = p0 ∨ ∃ u, u ∈ g ∧ h = price u) ∧
  (h ≤ p0)%Qc ∧ ∀ u, u ∈ g → (h ≤ price u)%Qc.
Proof.
  revert p0. induction g as [|t g IH]; intros p0; simpl.
  { split; [by left|]. split; [apply Qcle_refl|]. by intros ? ?%elem_of_nil. }
  destruct (IH (qc_min p0 (price t))) as (Hin & Hle & Hall).
  assert ((qc_min p0 (price t) ≤ p0)%Qc ∧ (qc_min p0 (price t) ≤ price t)%Qc
          ∧ (qc_min p0 (price t) = p0 ∨ qc_min p0 (price t) = price t))
    as (H0 & Ht & Hsel).
  { unfold qc_min. destruct (qc_leb p0 (price t)) eqn:Hc.
    - apply qc_leb_spec in Hc. repeat split; [apply Qcle_refl|done|by left].
    - apply qc_leb_total in Hc. repeat split; [done|apply Qcle_refl|by right]. }
  split; [|split].
  - destruct Hin as [->|(u & Hu & ->)].
    + destruct Hsel as [->| ->]; [by left|].
      right. exists t. split; [apply elem_of_cons; by left|done].
    + right. exists u. split; [apply elem_of_cons; by right|done].
  - by eapply Qcle_trans.
  - intros u [->|Hu]%elem_of_cons; [by eapply Qcle_trans|by apply Hall].
Qed.

Lemma count_by_label (labels : list Z) (key : Tick → Z) (l : list Tick) :
  NoDup labels → (∀ t, t ∈ l → key t ∈ labels) →
  sum_list ((λ b, length (filter (λ t, key t = b) l)) <$> labels) = length l.
Proof.
  intros Hnd. induction l as [|t l IH]; intros Hcover.
  - clear Hnd Hcover. induction labels as [|b labels IHl]; [done|].
    rewrite fmap_cons. simpl in *. by rewrite IHl.
  - simpl. rewrite <- IH
      by (intros u Hu; apply Hcover, elem_of_cons; by right).
    assert (key t ∈ labels) as Hin by (apply Hcover, elem_of_cons; by left).
    clear IH Hcover. revert Hin.
    induction Hnd as [|b labels Hb Hnd IHl]; intros Hin.
    { by apply elem_of_nil in Hin. }
    rewrite !fmap_cons. cbn [sum_list sum_list_with]. rewrite filter_cons.
    apply elem_of_cons in Hin as [Heq|Hin].
    + subst b. rewrite decide_True by done.
      assert (∀ ls : list Z, key t ∉ ls →
                (λ b, length (filter (λ t0, key t0 = b) (t :: l))) <$> ls
                = (λ b, length (filter (λ t0, key t0 = b) l)) <$> ls)
        as Hsame.
      { intros ls Hls. apply list_fmap_ext. intros i b Hb'. simpl.
        rewrite filter_cons. rewrite decide_False; [done|].
        intros Hk. apply Hls. replace (key t) with b by done.
        by eapply list_elem_of_lookup_2. }
      rewrite Hsame by done. simpl. lia.
    + rewrite decide_False by (intros Heq; apply Hb; by rewrite <- Heq).
      rewrite IHl by done. lia.
Qed.

Lemma fmap_elem_inj {A B} (f : A → B) (l : list A) (x y : A) :
  NoDup (f <$> l) → x ∈ l → y ∈ l → f x = f y → x = y.
Proof.
  induction l as [|a l IH]; intros Hnd Hx Hy Hf.
  { by apply elem_of_nil in Hx. }
  rewrite fmap_cons in Hnd. apply NoDup_cons in Hnd as [Ha Hnd].
  apply elem_of_cons in Hx as [->|Hx]; apply elem_of_cons in Hy as [->|Hy].
  - done.
  - exfalso. apply Ha. rewrite Hf. by apply list_elem_of_fmap_2.
  - exfalso. apply Ha. rewrite <- Hf. by apply list_elem_of_fmap_2.
  - by apply IH.
Qed.

(** The bars of a call that returns, with the frame and the grid spelled
    out. *)
Lemma resample_to_ohlc_grid (float_sum : list Qc → Qc) (ticks : list Tick)
    (tf : Timeframe) (bars : list OHLCBar) :
  resample_to_ohlc float_sum ticks tf = Returns bars → ticks ≠ [] →
  ∃ first rest z,
    let df := first :: rest in
    let P := period_us tf in
    let origin := normalize_day (timestamp first) in
    let lo := bin_of origin P (timestamp first) in
    df ≡ₚ ticks ∧ StronglySorted time_le df ∧ last df = Some z ∧
    (∀ t, t ∈ df → timestamp first ≤ timestamp t ≤ timestamp z) ∧
    bars =
      row_to_bar (symbol first) (timeframe_name tf) <$>
        bfill ((λ k, make_row float_sum (lo + k * P)
                       (filter (λ t, bin_of origin P (timestamp t)
                                     = lo + k * P) df))
                 <$> seqZ 0 ((timestamp z - origin) / P
                             - (timestamp first - origin) / P + 1)).
Proof.
  intros Hres Hne.
  destruct (resample_returns float_sum ticks tf bars Hres Hne)
    as (first & rest & Hdf & ->).
  pose proof (sort_index_Permutation ticks) as Hperm.
  pose proof (sort_index_sorted ticks) as Hsorted.
  rewrite Hdf in Hperm, Hsorted.
  destruct (last (first :: rest)) as [z|] eqn:Hlast;
    [|by apply last_None in Hlast].
  exists first, rest, z. cbv zeta.
  do 3 (split; [done|]). split; [by apply sorted_frame_range|].
  do 2 f_equal. unfold resample_rows. rewrite Hlast. simpl.
  by rewrite bin_of_steps by apply period_us_pos.
Qed.

Lemma same_precision_spec (stamps : list Z) :
  same_precision stamps = true
  ↔ ∀ x y, x ∈ stamps → y ∈ stamps → has_fraction x = has_fraction y.
Proof.
  unfold same_precision. destruct stamps as [|first rest].
  { split; [|done]. intros _ x y Hx. by apply elem_of_nil in Hx. }
  rewrite forallb_forall. split.
  - intros Hall x y Hx Hy.
    apply list_elem_of_In, Hall, Bool.eqb_prop in Hx.
    apply list_elem_of_In, Hall, Bool.eqb_prop in Hy. congruence.
  - intros Hall x Hx%list_elem_of_In.
    rewrite (Hall x first Hx) by (apply elem_of_cons; by left).
    apply Bool.eqb_reflx.
Qed.

Lemma same_precision_Permutation (l1 l2 : list Z) :
  l1 ≡ₚ l2 → same_precision l1 = same_precision l2.
Proof.
  intros Hperm.
  destruct (same_precision l1) eqn:H1, (same_precision l2) eqn:H2;
    try done.
  - pose proof (proj1 (same_precision_spec l1) H1) as Hall.
    assert (same_precision l2 = true); [|congruence].
    apply same_precision_spec. intros x y Hx Hy.
    rewrite <- Hperm in Hx, Hy. by apply Hall.
  - pose proof (proj1 (same_precision_spec l2) H2) as Hall.
    assert (same_precision l1 = true); [|congruence].
    apply same_precision_spec. intros x y Hx Hy.
    rewrite Hperm in Hx, Hy. by apply Hall.
Qed.

Lemma ticks_to_dataframe_Permutation (ticks1 ticks2 : list Tick) :
  ticks1 ≡ₚ ticks2 → sort_index ticks1 = sort_index ticks2 →
  ticks_to_dataframe ticks1 = ticks_to_dataframe ticks2.
Proof.
  intros Hperm Hsort. unfold ticks_to_dataframe, to_datetime.
  rewrite (same_precision_Permutation (timestamp <$> ticks1)
             (timestamp <$> ticks2)) by by rewrite Hperm.
  rewrite Hsort.
  destruct ticks1 as [|t1 ticks1], ticks2 as [|t2 ticks2]; try done;
    try (by apply Permutation_nil_l in Hperm);
    try (by apply Permutation_nil_r in Hperm).
  by destruct (same_precision _).
Qed.

End ResamplerExtras.

Section ResamplerExtraTheorems.
Import Collector Resampler.

(** X9.  No bar carries a NaN.  The last bucket always holds the latest
    tick, so backward filling finds a value for every empty bucket: in
    every bar returned, open, high, low and close are numbers. *)
Theorem resample_no_missing_price (float_sum : list Qc → Qc)
    (ticks : list Tick) (tf : Timeframe) (bars : list OHLCBar) :
  resample_to_ohlc float_sum ticks tf = Returns bars →
  Forall (λ b, is_Some (open b) ∧ is_Some (high b) ∧ is_Some (low b)
               ∧ is_Some (close b))
         bars.
Proof.
  intros Hres.
  destruct ticks as [|t0 ticks0] eqn:Hticks.
  { injection Hres as <-. constructor. }
  rewrite <- Hticks in Hres.
  destruct (resample_to_ohlc_grid float_sum ticks tf bars Hres) as
    (first & rest & z & Hperm & Hsorted & Hlast & Hrange & ->);
    [by rewrite Hticks|].
  pose proof (period_us_pos tf) as HP.
  set (P := period_us tf) in *.
  set (origin := normalize_day (timestamp first)) in *.
  set (n := (timestamp z - origin) / P - (timestamp first - origin) / P + 1).
  assert (z ∈ first :: rest) as Hz by by apply last_Some_elem_of.
  assert (1 ≤ n) as Hn.
  { subst n. destruct (Hrange z Hz) as [Hle _].
    pose proof (Z.div_le_mono (timestamp first - origin)
                  (timestamp z - origin) P HP ltac:(lia)). lia. }
  apply Forall_fmap.
  eapply Forall_impl; [eapply bfill_defined|by intros r (? & ? & ? & ?)].
  - rewrite fmap_last, last_lookup, length_seqZ.
    rewrite (lookup_seqZ_lt 0 n (pred (Z.to_nat n))) by lia. done.
  - apply group_defined. intros Hnil.
    eapply (filter_nil_not_elem_of _ _ z Hnil); [|done].
    replace (0 + Z.of_nat (Init.Nat.pred (Z.to_nat n))) with (n - 1) by lia.
    subst n. unfold bin_of. lia.
Qed.

Lemma resample_no_missing_price_witness :
  let ticks := [tick_at "btcusdt" 200000000 (Qc_of_Z 250) (Qc_of_Z 2);
                tick_at "btcusdt" 0 (Qc_of_Z 100) (Qc_of_Z 1)] in
  ∃ bars,
    resample_to_ohlc seq_float_sum ticks TF_1min = Returns bars ∧
    length bars = 4%nat ∧
    Forall (λ b, is_Some (open b) ∧ is_Some (high b) ∧ is_Some (low b)
                 ∧ is_Some (close b))
           bars.
Proof.
  intros ticks. eexists. split; [reflexivity|]. split; [reflexivity|].
  by apply (resample_no_missing_price seq_float_sum ticks TF_1min).
Defined.

(** X10.  The bars form a contiguous, ascending grid.  When the call
    returns on a non-empty input there are an earliest tick [t0] and a
    latest tick [t1] such that the starts of the bars are, in order, the
    bucket of [t0], then one step of [T] after the other, up to the bucket
    of [t1], on the grid anchored at midnight of the day of [t0]; empty
    buckets in between are not skipped.  Every bar carries the symbol of
    [t0] and the timeframe that was asked for. *)
Theorem resample_contiguous_grid (float_sum : list Qc → Qc)
    (ticks : list Tick) (tf : Timeframe) (bars : list OHLCBar) :
  resample_to_ohlc float_sum ticks tf = Returns bars → ticks ≠ [] →
  let T := period_us tf in
  ∃ t0 t1, t0 ∈ ticks ∧ t1 ∈ ticks ∧
    (∀ t, t ∈ ticks → timestamp t0 ≤ timestamp t ≤ timestamp t1) ∧
    let bucket := bin_of (normalize_day (timestamp t0)) T in
    bar_timestamp <$> bars =
      (λ k, bucket (timestamp t0) + k * T)
        <$> seqZ 0 ((bucket (timestamp t1) - bucket (timestamp t0)) / T + 1)
    ∧
    Forall (λ b, bar_symbol b = symbol t0 ∧ timeframe b = timeframe_name tf)
           bars.
Proof.
  intros Hres Hne T.
  destruct (resample_to_ohlc_grid float_sum ticks tf bars Hres Hne) as
    (first & rest & z & Hperm & Hsorted & Hlast & Hrange & ->).
  pose proof (period_us_pos tf) as HP. fold T in HP |- *.
  exists first, z. split; [|split; [|split; [|split]]].
  - rewrite <- Hperm. apply elem_of_cons. by left.
  - rewrite <- Hperm. by apply last_Some_elem_of.
  - intros t Ht. rewrite <- Hperm in Ht. by apply Hrange.
  - rewrite <- list_fmap_compose.
    change (bar_timestamp ∘ row_to_bar (symbol first) (timeframe_name tf))
      with r_label.
    rewrite bfill_labels, <- list_fmap_compose.
    by rewrite bin_of_steps by done.
  - apply Forall_fmap, Forall_forall. by intros r _.
Qed.

Lemma resample_contiguous_grid_witness :
  let ticks := [tick_at "btcusdt" (day_us + 900 * second_us) (Qc_of_Z 250)
                  (Qc_of_Z 2);
                tick_at "btcusdt" day_us (Qc_of_Z 100) (Qc_of_Z 1)] in
  ∃ bars,
    resample_to_ohlc seq_float_sum ticks TF_7min = Returns bars ∧
    bar_timestamp <$> bars =
      [day_us; day_us + 420 * second_us; day_us + 840 * second_us] ∧
    Forall (λ b, bar_symbol b = "btcusdt") bars.
Proof.
  intros ticks. eexists. split; [reflexivity|]. split; [reflexivity|].
  destruct (resample_contiguous_grid seq_float_sum ticks TF_7min _ eq_refl)
    as (t0 & t1 & Ht0 & _ & _ & _ & Hsym); [discriminate|].
  eapply Forall_impl; [exact Hsym|]. simpl. intros b [-> _].
  apply elem_of_cons in Ht0 as [->|Ht0]; [done|].
  apply list_elem_of_singleton in Ht0 as ->. done.
Defined.

(** X11.  The prices of a populated bar.  For a bar that aggregates at
    least one tick, with [members] the ticks of the input that fall into
    its bucket (on the grid anchored at midnight of the day of the
    earliest tick [t0]): open is the price of a member of earliest
    timestamp, close the price of a member of latest timestamp, high the
    largest and low the smallest price among the members. *)
Theorem resample_populated_bar (float_sum : list Qc → Qc)
    (ticks : list Tick) (tf : Timeframe) (bars : list OHLCBar)
    (b : OHLCBar) :
  resample_to_ohlc float_sum ticks tf = Returns bars →
  b ∈ bars → trade_count b ≠ 0%nat →
  ∃ t0, t0 ∈ ticks ∧ (∀ t, t ∈ ticks → timestamp t0 ≤ timestamp t) ∧
    let members :=
      filter (λ t, bin_of (normalize_day (timestamp t0)) (period_us tf)
                     (timestamp t) = bar_timestamp b)
        ticks in
    (∃ t, t ∈ members ∧ open b = Some (price t)
          ∧ ∀ u, u ∈ members → timestamp t ≤ timestamp u) ∧
    (∃ t, t ∈ members ∧ close b = Some (price t)
          ∧ ∀ u, u ∈ members → timestamp u ≤ timestamp t) ∧
    (∃ t, t ∈ members ∧ high b = Some (price t)
          ∧ ∀ u, u ∈ members → (price u ≤ price t)%Qc) ∧
    (∃ t, t ∈ members ∧ low b = Some (price t)
          ∧ ∀ u, u ∈ members → (price t ≤ price u)%Qc).
Proof.
  intros Hres Hb Hcount.
  assert (ticks ≠ []) as Hne.
  { intros ->. injection Hres as <-. by apply elem_of_nil in Hb. }
  destruct (resample_to_ohlc_grid float_sum ticks tf bars Hres Hne) as
    (first & rest & z & Hperm & Hsorted & Hlast & Hrange & Heq).
  rewrite Heq in Hb. clear Heq.
  exists first. split; [|split].
  { rewrite <- Hperm. apply elem_of_cons. by left. }
  { intros t Ht. rewrite <- Hperm in Ht. by apply Hrange. }
  apply list_elem_of_fmap in Hb as (x & -> & Hx).
  apply bfill_populated in Hx as (r & Hr & Hl & Hc & Hcells).
  apply list_elem_of_fmap in Hr as (k & -> & _).
  simpl in Hl, Hc, Hcount. rewrite Hc in Hcount.
  simpl. rewrite Hl.
  set (origin := normalize_day (timestamp first)) in *.
  set (label := bin_of origin (period_us tf) (timestamp first)
                + k * period_us tf) in *.
  set (g := filter (λ t, bin_of origin (period_us tf) (timestamp t) = label)
              (first :: rest)) in *.
  assert (g ≡ₚ filter (λ t, bin_of origin (period_us tf) (timestamp t)
                          = label)
                 ticks) as Hg by (subst g; by rewrite Hperm).
  assert (StronglySorted time_le g) as Hgs by by apply filter_sorted.
  assert (g ≠ []) as Hgne by (intros Hnil; by rewrite Hnil in Hcount).
  destruct (Hcells (group_defined float_sum label g Hgne))
    as (Ho & Hh & Hlo & Hcl).
  rewrite Ho, Hh, Hlo, Hcl. simpl. clear Ho Hh Hlo Hcl Hcells Hc Hl.
  setoid_rewrite <- Hg. clear Hg.
  destruct g as [|t g'] eqn:Hgeq; [done|].
  split; [|split; [|split]].
  - exists t. split; [apply elem_of_cons; by left|]. split; [done|].
    intros u [->|Hu]%elem_of_cons; [lia|].
    inversion_clear Hgs as [|? ? _ Hall].
    rewrite Forall_forall in Hall. by apply Hall.
  - unfold group_close.
    destruct (last (t :: g')) as [w|] eqn:Hw; [|by apply last_None in Hw].
    exists w. split; [by apply last_Some_elem_of|]. split; [done|].
    intros u Hu. by eapply sorted_last_max.
  - unfold group_high.
    destruct (foldl_qc_max (price t) g') as (Hin & Hle & Hall).
    destruct Hin as [Hin|(u & Hu & Hin)].
    + exists t. split; [apply elem_of_cons; by left|]. split; [by rewrite Hin|].
      intros u [->|Hu]%elem_of_cons; [apply Qcle_refl|].
      rewrite <- Hin. by apply Hall.
    + exists u. split; [apply elem_of_cons; by right|].
      split; [by rewrite Hin|].
      intros w [->|Hw]%elem_of_cons; rewrite <- Hin; [done|by apply Hall].
  - unfold group_low.
    destruct (foldl_qc_min (price t) g') as (Hin & Hle & Hall).
    destruct Hin as [Hin|(u & Hu & Hin)].
    + exists t. split; [apply elem_of_cons; by left|]. split; [by rewrite Hin|].
      intros u [->|Hu]%elem_of_cons; [apply Qcle_refl|].
      rewrite <- Hin. by apply Hall.
    + exists u. split; [apply elem_of_cons; by right|].
      split; [by rewrite Hin|].
      intros w [->|Hw]%elem_of_cons; rewrite <- Hin; [done|by apply Hall].
Qed.

Lemma resample_populated_bar_witness :
  let ticks := [tick_at "btcusdt" (20 * second_us) (Qc_of_Z 50) (Qc_of_Z 1);
                tick_at "btcusdt" 0 (Qc_of_Z 100) (Qc_of_Z 1);
                tick_at "btcusdt" (30 * second_us) (Qc_of_Z 200) (Qc_of_Z 1);
                tick_at "btcusdt" (10 * second_us) (Qc_of_Z 300) (Qc_of_Z 1);
                tick_at "btcusdt" (70 * second_us) (Qc_of_Z 120)
                  (Qc_of_Z 1)] in
  ∃ bars b,
    resample_to_ohlc seq_float_sum ticks TF_1min = Returns bars ∧
    head bars = Some b ∧
    (open b, high b, low b, close b)
    = (Some (Qc_of_Z 100), Some (Qc_of_Z 300), Some (Qc_of_Z 50),
       Some (Qc_of_Z 200)) ∧
    ∃ t0, t0 ∈ ticks ∧ (∀ t, t ∈ ticks → timestamp t0 ≤ timestamp t) ∧
      let members :=
        filter (λ t, bin_of (normalize_day (timestamp t0))
                       (period_us TF_1min) (timestamp t) = bar_timestamp b)
          ticks in
      (∃ t, t ∈ members ∧ open b = Some (price t)
            ∧ ∀ u, u ∈ members → timestamp t ≤ timestamp u) ∧
      (∃ t, t ∈ members ∧ close b = Some (price t)
            ∧ ∀ u, u ∈ members → timestamp u ≤ timestamp t) ∧
      (∃ t, t ∈ members ∧ high b = Some (price t)
            ∧ ∀ u, u ∈ members → (price u ≤ price t)%Qc) ∧
      (∃ t, t ∈ members ∧ low b = Some (price t)
            ∧ ∀ u, u ∈ members → (price t ≤ price u)%Qc).
Proof.
  intros ticks. eexists _, _.
  split; [reflexivity|]. split; [reflexivity|]. split; [reflexivity|].
  eapply (resample_populated_bar seq_float_sum ticks TF_1min).
  - reflexivity.
  - apply elem_of_cons. left. reflexivity.
  - discriminate.
Defined.

(** X12.  Resampling conserves the trades: when the call returns, the
    trade counts of the bars add up to the number of ticks, so no tick is
    dropped or counted twice; and a bar without a trade has the volume
    that is the sum of no float. *)
Theorem resample_conserves_trades (float_sum : list Qc → Qc)
    (ticks : list Tick) (tf : Timeframe) (bars : list OHLCBar) :
  resample_to_ohlc float_sum ticks tf = Returns bars →
  sum_list (trade_count <$> bars) = length ticks ∧
  Forall (λ b, trade_count b = 0%nat → volume b = float_sum []) bars.
Proof.
  intros Hres.
  destruct ticks as [|t0 ticks0] eqn:Hticks.
  { injection Hres as <-. split; [done|constructor]. }
  rewrite <- Hticks in Hres |- *.
  assert (ticks ≠ []) as Hne by by rewrite Hticks.
  clear Hticks.
  destruct (resample_to_ohlc_grid float_sum ticks tf bars Hres Hne) as
    (first & rest & z & Hperm & Hsorted & Hlast & Hrange & Heq).
  pose proof (period_us_pos tf) as HP.
  destruct (resample_rows_spec float_sum (period_us tf) first rest HP
              Hsorted) as (Hcover & Hnd & _).
  unfold resample_rows in Hcover, Hnd. rewrite Hlast in Hcover, Hnd.
  simpl in Hcover, Hnd.
  rewrite bin_of_steps in Hcover, Hnd by done.
  rewrite <- list_fmap_compose in Hcover, Hnd.
  rewrite Heq. clear Heq.
  set (P := period_us tf) in *.
  set (origin := normalize_day (timestamp first)) in *.
  set (labels := (λ k, bin_of origin P (timestamp first) + k * P)
                   <$> seqZ 0 ((timestamp z - origin) / P
                               - (timestamp first - origin) / P + 1)).
  change (r_label ∘ _)
    with (λ k, bin_of origin P (timestamp first) + k * P) in Hcover, Hnd.
  fold labels in Hcover, Hnd.
  split.
  - rewrite <- list_fmap_compose.
    change (trade_count ∘ row_to_bar (symbol first) (timeframe_name tf))
      with r_trade_count.
    rewrite bfill_counts, <- list_fmap_compose.
    rewrite <- (Permutation_length Hperm).
    rewrite <- (count_by_label labels
                  (λ t, bin_of origin P (timestamp t)) (first :: rest))
      by done.
    unfold labels. by rewrite <- list_fmap_compose.
  - apply Forall_fmap, Forall_forall. intros x Hx. simpl.
    apply bfill_elem_of in Hx as (r & Hr & _ & Hv & Hc).
    rewrite Hv, Hc.
    apply list_elem_of_fmap in Hr as (k & -> & _). simpl.
    intros Hlen. apply nil_length_inv in Hlen.
    unfold group_volume. by rewrite Hlen.
Qed.

Lemma resample_conserves_trades_witness :
  let ticks := [tick_at "btcusdt" 200000000 (Qc_of_Z 250) (Qc_of_Z 2);
                tick_at "btcusdt" 0 (Qc_of_Z 100) (Qc_of_Z 1)] in
  ∃ bars,
    resample_to_ohlc seq_float_sum ticks TF_1min = Returns bars ∧
    length bars = 4%nat ∧ sum_list (trade_count <$> bars) = 2%nat.
Proof.
  intros ticks. eexists. split; [reflexivity|]. split; [reflexivity|].
  by apply (resample_conserves_trades seq_float_sum ticks TF_1min).
Defined.

(** X13.  The order of arrival does not matter when timestamps are distinct:
    two inputs that hold the same ticks in any order give identical bars,
    or raise alike.  (Ticks that share a timestamp are left in an order
    that open and close can see.) *)
Theorem resample_order_insensitive (float_sum : list Qc → Qc)
    (ticks1 ticks2 : list Tick) (tf : Timeframe) :
  ticks1 ≡ₚ ticks2 → NoDup (timestamp <$> ticks1) →
  resample_to_ohlc float_sum ticks1 tf = resample_to_ohlc float_sum ticks2 tf.
Proof.
  intros Hperm Hnd.
  assert (sort_index ticks1 = sort_index ticks2) as Hsort.
  { apply (StronglySorted_unique_strong time_le);
      [|apply sort_index_sorted..|].
    - intros x1 x2 Hx1 Hx2 H12 H21. unfold time_le in *.
      rewrite sort_index_Permutation in Hx1.
      rewrite sort_index_Permutation, <- Hperm in Hx2.
      apply (fmap_elem_inj timestamp ticks1); [done..|lia].
    - by rewrite !sort_index_Permutation. }
  unfold resample_to_ohlc, resample_with.
  rewrite (ticks_to_dataframe_Permutation ticks1 ticks2 Hperm Hsort).
  destruct ticks1 as [|t1 ticks1], ticks2 as [|t2 ticks2]; try done;
    try (by apply Permutation_nil_l in Hperm);
    by apply Permutation_nil_r in Hperm.
Qed.

Lemma resample_order_insensitive_witness :
  let a := tick_at "btcusdt" 0 (Qc_of_Z 100) (Qc_of_Z 1) in
  let b := tick_at "btcusdt" 200000000 (Qc_of_Z 250) (Qc_of_Z 2) in
  resample_to_ohlc seq_float_sum [b; a] TF_1min
  = resample_to_ohlc seq_float_sum [a; b] TF_1min.
Proof.
  intros a b. apply resample_order_insensitive.
  - apply Permutation_swap.
  - repeat constructor; [|by intros ?%elem_of_nil].
    intros [H|H]%elem_of_cons; [discriminate H|by apply elem_of_nil in H].
Defined.

End ResamplerExtraTheorems.

(* ===================================================================== *)
(** * Further properties of the analytics engine *)
(* ===================================================================== *)

Section AnalyticsExtras.
Import Analytics.
Local Open Scope Qc_scope.

Lemma rolling_mean_length (W : nat) (vals : list (option Qc)) :
  length (rolling_mean W vals) = length vals.
Proof. apply length_imap. Qed.

Lemma rolling_std_length (W : nat) (vals : list (option Qc)) :
  length (rolling_std W vals) = length vals.
Proof. apply length_imap. Qed.

Lemma values_length {A} (s : Series A) : length (values s) = length s.
Proof. apply length_fmap. Qed.

Lemma labels_length {A} (s : Series A) : length (s.*1) = length s.
Proof. apply length_fmap. Qed.

Lemma window_at_Some (W : nat) (vals : list (option Qc)) (i : nat)
    (w : list Qc) :
  (i < length vals)%nat → window_at W vals i = Some w →
  (1 ≤ W ∧ W ≤ S i)%nat ∧ length w = W
  ∧ Some <$> w = take W (drop (S i - W) vals).
Proof.
  intros Hi. unfold window_at. case_decide as HW; [|done]. intros Hw.
  apply (mapM_fmap_Some_inv id Some) in Hw; [|by intros x y Hxy].
  split; [done|]. split; [|done].
  apply (f_equal length) in Hw.
  rewrite length_fmap, length_take, length_drop in Hw. lia.
Qed.

Lemma qc_of_nat_pos (n : nat) : (1 ≤ n)%nat → 0 < qc_of_nat n.
Proof.
  intros Hn. unfold qc_of_nat. rewrite <- Z2Qc_inj_0.
  apply (proj1 (Z2Qc_inj_lt 0 (Z.of_nat n))). lia.
Qed.

Lemma qc_sum_lower (lo : Qc) (w : list Qc) :
  (∀ x, x ∈ w → lo ≤ x) → qc_of_nat (length w) * lo ≤ qc_sum w.
Proof.
  induction w as [|x w IH]; intros Hlo.
  - unfold qc_of_nat. change (Z.of_nat (length [])) with 0%Z.
    rewrite Z2Qc_inj_0, Qcmult_0_l. apply Qcle_refl.
  - change (length (x :: w)) with (S (length w)). rewrite qc_of_nat_S.
    change (qc_sum (x :: w)) with (x + qc_sum w).
    rewrite Qcmult_plus_distr_l, Qcmult_1_l.
    apply Qcplus_le_compat.
    + apply Hlo, elem_of_cons. by left.
    + apply IH. intros y Hy. apply Hlo, elem_of_cons. by right.
Qed.

Lemma qc_sum_upper (hi : Qc) (w : list Qc) :
  (∀ x, x ∈ w → x ≤ hi) → qc_sum w ≤ qc_of_nat (length w) * hi.
Proof.
  induction w as [|x w IH]; intros Hhi.
  - unfold qc_of_nat. change (Z.of_nat (length [])) with 0%Z.
    rewrite Z2Qc_inj_0, Qcmult_0_l. apply Qcle_refl.
  - change (length (x :: w)) with (S (length w)). rewrite qc_of_nat_S.
    change (qc_sum (x :: w)) with (x + qc_sum w).
    rewrite Qcmult_plus_distr_l, Qcmult_1_l.
    apply Qcplus_le_compat.
    + apply Hhi, elem_of_cons. by left.
    + apply IH. intros y Hy. apply Hhi, elem_of_cons. by right.
Qed.

Lemma qc_list_min (w : list Qc) :
  w ≠ [] → ∃ lo, lo ∈ w ∧ ∀ x, x ∈ w → lo ≤ x.
Proof.
  induction w as [|x w IH]; [done|]. intros _.
  destruct w as [|y w].
  - exists x. split; [apply elem_of_cons; by left|].
    intros z ->%list_elem_of_singleton. apply Qcle_refl.
  - destruct IH as (lo & Hlo & Hall); [done|].
    destruct (Qclt_le_dec x lo) as [Hlt|Hle].
    + exists x. split; [apply elem_of_cons; by left|].
      intros z [->|Hz]%elem_of_cons; [apply Qcle_refl|].
      eapply Qcle_trans; [by apply Qclt_le_weak|by apply Hall].
    + exists lo. split; [apply elem_of_cons; by right|].
      intros z [->|Hz]%elem_of_cons; [done|by apply Hall].
Qed.

Lemma qc_list_max (w : list Qc) :
  w ≠ [] → ∃ hi, hi ∈ w ∧ ∀ x, x ∈ w → x ≤ hi.
Proof.
  induction w as [|x w IH]; [done|]. intros _.
  destruct w as [|y w].
  - exists x. split; [apply elem_of_cons; by left|].
    intros z ->%list_elem_of_singleton. apply Qcle_refl.
  - destruct IH as (hi & Hhi & Hall); [done|].
    destruct (Qclt_le_dec hi x) as [Hlt|Hle].
    + exists x. split; [apply elem_of_cons; by left|].
      intros z [->|Hz]%elem_of_cons; [apply Qcle_refl|].
      eapply Qcle_trans; [by apply Hall|by apply Qclt_le_weak].
    + exists hi. split; [apply elem_of_cons; by right|].
      intros z [->|Hz]%elem_of_cons; [done|by apply Hall].
Qed.

Lemma mean_times_length (w : list Qc) :
  w ≠ [] → mean w * qc_of_nat (length w) = qc_sum w.
Proof.
  intros Hw. unfold mean. rewrite Qcmult_comm. apply Qcmult_div_r.
  apply qc_of_nat_nonzero. destruct w; [done|simpl; lia].
Qed.

(** The mean lies between the smallest and the largest value. *)
Lemma mean_between (w : list Qc) :
  w ≠ [] → ∃ lo hi, lo ∈ w ∧ hi ∈ w ∧ lo ≤ mean w ∧ mean w ≤ hi.
Proof.
  intros Hw.
  destruct (qc_list_min w Hw) as (lo & Hlo & Hmin).
  destruct (qc_list_max w Hw) as (hi & Hhi & Hmax).
  exists lo, hi. split; [done|]. split; [done|].
  assert (0 < qc_of_nat (length w)) as Hn
    by (apply qc_of_nat_pos; destruct w; [done|simpl; lia]).
  split; apply (Qcmult_lt_0_le_reg_r _ _ (qc_of_nat (length w)) Hn);
    rewrite mean_times_length by done; rewrite Qcmult_comm.
  - by apply qc_sum_lower.
  - by apply qc_sum_upper.
Qed.

Lemma fsqrt_nonneg (q : Qc) : 0 ≤ fsqrt q.
Proof.
  unfold fsqrt, Qcle.
  set (x := Qmake (Z.sqrt (Qnum q * Z.pos (Qden q) * 2 ^ 104))
                  (Qden q * 2 ^ 52)).
  assert (this (Q2Qc x) == x)%Q as -> by apply Qred_correct.
  unfold Qle. simpl. rewrite Z.mul_1_r. apply Z.sqrt_nonneg.
Qed.

Lemma sample_std_nonneg (w : list Qc) (sd : Qc) :
  sample_std w = Some sd → 0 ≤ sd.
Proof.
  unfold sample_std. case_decide; [done|]. intros [= <-]. apply fsqrt_nonneg.
Qed.

End AnalyticsExtras.

Section AnalyticsExtraTheorems.
Import Analytics.
Local Open Scope Qc_scope.

(** X14.  The shape of the rolling z-score.  A series shorter than the window
    gives the empty series.  Otherwise the result is indexed like the
    input, and the first [W - 1] positions hold NaN: a value at position
    [i] needs the [W] observations that end at [i]. *)
Theorem zscore_shape (series : Series (option Qc)) (W : nat) :
  ((length series < W)%nat → compute_zscore series W = []) ∧
  ((W ≤ length series)%nat →
     (compute_zscore series W).*1 = series.*1 ∧
     ∀ i, (S i < W)%nat → (i < length series)%nat →
          (compute_zscore series W).*2 !! i = Some NaN).
Proof.
  unfold compute_zscore. split.
  - intros Hshort. by case_decide; [|lia].
  - intros Hlong. case_decide; [lia|].
    set (vals := values series).
    set (L := zip_with cell_div
                (zip_with cell_sub vals (rolling_mean W vals))
                (rolling_std W vals)).
    assert (length L = length series) as HL.
    { subst L. rewrite !length_zip_with, rolling_mean_length,
        rolling_std_length. subst vals. rewrite values_length. lia. }
    split.
    + apply fst_zip. rewrite labels_length. lia.
    + intros i Hi Hlt. rewrite snd_zip by (rewrite labels_length; lia).
      subst L. unfold rolling_mean, rolling_std.
      rewrite !lookup_zip_with, !list_lookup_imap.
      destruct (lookup_lt_is_Some_2 vals i) as [x Hx];
        [subst vals; rewrite values_length; lia|].
      rewrite Hx. simpl. unfold window_at.
      rewrite decide_False by lia. simpl. by destruct x.
Qed.

Lemma zscore_shape_witness :
  compute_zscore three_ones 4 = [].
Proof.
  destruct (zscore_shape three_ones 4) as [Hshort _].
  apply Hshort. simpl. lia.
Defined.

(** X15.  The moving average is indexed like the input.  Wherever it holds a
    value at position [i], the window is complete ([W <= i + 1]), the [W]
    observations that end at [i] are all present, the value times [W] is
    their sum, and the value lies between the smallest and the largest of
    them.  Before position [W - 1] it holds NaN. *)
Theorem moving_average_window (series : Series (option Qc)) (W : nat) :
  let ma := compute_moving_average series W in
  ma.*1 = series.*1 ∧
  (∀ i, (S i < W)%nat → (i < length series)%nat → ma.*2 !! i = Some None) ∧
  (∀ i m, ma.*2 !! i = Some (Some m) →
     (1 ≤ W ≤ S i)%nat ∧
     ∃ w, length w = W ∧
          Some <$> w = take W (drop (S i - W) (values series)) ∧
          m * qc_of_nat W = qc_sum w ∧
          ∃ lo hi, lo ∈ w ∧ hi ∈ w ∧ lo ≤ m ∧ m ≤ hi).
Proof.
  intros ma. subst ma. unfold compute_moving_average.
  set (vals := values series).
  assert (length (rolling_mean W vals) = length series) as HL
    by (rewrite rolling_mean_length; apply values_length).
  split; [apply fst_zip; rewrite labels_length; lia|].
  rewrite snd_zip by (rewrite labels_length; lia).
  unfold rolling_mean. split.
  - intros i Hi Hlt. rewrite list_lookup_imap.
    destruct (lookup_lt_is_Some_2 vals i) as [x Hx];
      [subst vals; rewrite values_length; lia|].
    rewrite Hx. simpl. unfold window_at. by rewrite decide_False by lia.
  - intros i m Hm. rewrite list_lookup_imap in Hm.
    destruct (vals !! i) as [x|] eqn:Hx; [|done]. simpl in Hm.
    apply lookup_lt_Some in Hx.
    destruct (window_at W vals i) as [w|] eqn:Hw; [|done].
    injection Hm as <-.
    apply window_at_Some in Hw as (HW & Hlen & Hwin); [|done].
    split; [done|]. exists w. split; [done|]. split; [done|].
    assert (w ≠ []) as Hne by (intros ->; simpl in Hlen; lia).
    split.
    + rewrite <- Hlen. by apply mean_times_length.
    + destruct (mean_between w Hne) as (lo & hi & ? & ? & ? & ?).
      by exists lo, hi.
Qed.

Lemma moving_average_window_witness :
  ∃ w, length w = 2%nat
       ∧ mean [Qc_of_Z 1; Qc_of_Z 1] * qc_of_nat 2 = qc_sum w.
Proof.
  destruct (moving_average_window three_ones 2) as (_ & _ & Hval).
  destruct (Hval 1%nat (mean [Qc_of_Z 1; Qc_of_Z 1]))
    as (_ & w & Hlen & _ & Hsum & _).
  - reflexivity.
  - exists w. split; [exact Hlen|exact Hsum].
Defined.

(** X16.  The Bollinger bands.  The middle band is the moving average, and the
    three bands are indexed like the input.  Wherever the upper band
    holds a value, so do the middle and the lower band, the middle lies
    halfway between the two, and for a multiplier that is not negative
    the bands are ordered lower <= middle <= upper. *)
Theorem bollinger_bands_symmetric (series : Series (option Qc)) (W : nat)
    (num_std : Qc) :
  let bb := compute_bollinger_bands series W num_std in
  middle bb = compute_moving_average series W ∧
  (upper bb).*1 = series.*1 ∧ (lower bb).*1 = series.*1 ∧
  ∀ i u, (upper bb).*2 !! i = Some (Some u) →
    ∃ m l, (middle bb).*2 !! i = Some (Some m) ∧
           (lower bb).*2 !! i = Some (Some l) ∧
           u + l = m + m ∧
           (0 ≤ num_std → l ≤ m ∧ m ≤ u).
Proof.
  intros bb. subst bb. unfold compute_bollinger_bands. simpl.
  set (vals := values series).
  assert (length (rolling_mean W vals) = length series) as HLm
    by (rewrite rolling_mean_length; apply values_length).
  assert (length (cell_scale num_std <$> rolling_std W vals) = length series)
    as HLs by (rewrite length_fmap, rolling_std_length; apply values_length).
  split; [done|].
  split; [apply fst_zip; rewrite labels_length, length_zip_with; lia|].
  split; [apply fst_zip; rewrite labels_length, length_zip_with; lia|].
  intros i u.
  rewrite !snd_zip by (rewrite labels_length, ?length_zip_with; lia).
  rewrite !lookup_zip_with, list_lookup_fmap.
  destruct (rolling_mean W vals !! i) as [[m|]|] eqn:Hm; simpl; [| |done].
  2:{ by destruct (cell_scale num_std <$> rolling_std W vals !! i). }
  unfold rolling_std. rewrite list_lookup_imap.
  destruct (vals !! i) as [x|] eqn:Hx; simpl; [|done].
  destruct (window_at W vals i ≫= sample_std) as [sd|] eqn:Hsd;
    simpl; [|done].
  intros [= <-]. exists m, (m - sd * num_std). split; [done|].
  split; [done|]. split; [ring|].
  intros Hk.
  assert (0 ≤ sd) as Hsd0.
  { apply bind_Some in Hsd as (w & _ & Hw). by eapply sample_std_nonneg. }
  assert (0 ≤ sd * num_std) as Hprod.
  { replace 0 with (0 * num_std) by ring. by apply Qcmult_le_compat_r. }
  split.
  - replace m with (m + - 0) at 2 by ring. unfold Qcminus.
    apply Qcplus_le_compat; [apply Qcle_refl|by apply Qcopp_le_compat].
  - replace m with (m + 0) at 1 by ring.
    apply Qcplus_le_compat; [apply Qcle_refl|done].
Qed.

Lemma bollinger_bands_symmetric_witness :
  let bb := compute_bollinger_bands flat_A 2 (Qc_of_Z 2) in
  ∃ m l, (middle bb).*2 !! 1%nat = Some (Some m)
         ∧ (lower bb).*2 !! 1%nat = Some (Some l).
Proof.
  intros bb.
  destruct (bollinger_bands_symmetric flat_A 2 (Qc_of_Z 2))
    as (_ & _ & _ & Hband).
  assert (∃ u, (upper bb).*2 !! 1%nat = Some (Some u)) as [u Hu]
    by (vm_compute; eexists; reflexivity).
  destruct (Hband 1%nat u Hu) as (m & l & Hm & Hl & _).
  exists m, l. split; [exact Hm|exact Hl].
Defined.

Lemma filter_all {A} (P : A → Prop) `{∀ x, Decision (P x)} (l : list A) :
  Forall P l → filter P l = l.
Proof.
  induction 1 as [|x l Hx _ IH]; [done|].
  rewrite filter_cons, decide_True by done. by rewrite IH.
Qed.

(** X17.  Returns of a complete series of non-zero prices.  There is one return
    per price but the first, labelled by the later of its two prices, each
    is a finite number, and it links consecutive prices:
    [p(i+1) = p(i) * (1 + r(i))]. *)
Theorem returns_link_prices
    (pct_fill : list (option Qc) → list (option Qc))
    (prices : Series (option Qc)) :
  (∀ l, Forall is_Some l → pct_fill l = l) →
  Forall (λ v, ∃ q, v = Some q ∧ q ≠ 0) (values prices) →
  let r := compute_returns pct_fill prices in
  r.*1 = tail (prices.*1) ∧
  length r = pred (length prices) ∧
  ∀ i p0 p1,
    values prices !! i = Some (Some p0) →
    values prices !! S i = Some (Some p1) →
    ∃ x, r.*2 !! i = Some (Fin x) ∧ p1 = p0 * (1 + x).
Proof.
  intros Hfill Hall r. subst r. unfold compute_returns.
  destruct prices as [|[t0 v0] rest].
  { unfold pct_change. rewrite Hfill by constructor. done. }
  change (values ((t0, v0) :: rest)) with (v0 :: values rest) in *.
  assert (pct_change pct_fill (v0 :: values rest) =
            NaN :: zip_with (λ prev cur, float_pred (cell_div cur prev))
                     (v0 :: values rest) (values rest)) as ->.
  { unfold pct_change. rewrite Hfill; [done|].
    eapply Forall_impl; [exact Hall|]. by intros ? (q & -> & _). }
  set (rs := zip_with (λ prev cur, float_pred (cell_div cur prev))
               (v0 :: values rest) (values rest)).
  change (zip (((t0, v0) :: rest).*1) (NaN :: rs))
    with ((t0, NaN) :: zip (rest.*1) rs).
  change (tail (((t0, v0) :: rest).*1)) with (rest.*1).
  change (length ((t0, v0) :: rest)) with (S (length rest)).
  assert (length rs = length rest) as HZ.
  { subst rs. rewrite length_zip_with.
    change (length (v0 :: values rest)) with (S (length (values rest))).
    rewrite values_length. lia. }
  assert (∀ i p0 p1, (v0 :: values rest) !! i = Some (Some p0) →
            values rest !! i = Some (Some p1) →
            rs !! i = Some (Fin (p1 / p0 - 1))) as Hlook.
  { intros i p0 p1 H0 H1. subst rs. rewrite lookup_zip_with, H0, H1. simpl.
    assert (p0 ≠ 0) as Hp0.
    { rewrite Forall_forall in Hall.
      destruct (Hall (Some p0)) as (q & [= <-] & Hq); [|done].
      by eapply list_elem_of_lookup_2. }
    by rewrite (proj2 (qc_is_zero_false p0) Hp0). }
  assert (Forall (λ z, is_nan z = false) rs) as Hfin.
  { apply Forall_lookup. intros i z Hz.
    assert (∃ p0 p1, (v0 :: values rest) !! i = Some (Some p0)
                     ∧ values rest !! i = Some (Some p1))
      as (p0 & p1 & H0 & H1).
    { pose proof Hz as Hz'. unfold rs in Hz'.
      apply lookup_zip_with_Some in Hz' as (prev & cur & _ & Hprev & Hcur).
      rewrite Forall_forall in Hall.
      destruct (Hall prev) as (p0 & -> & _);
        [by eapply list_elem_of_lookup_2|].
      destruct (Hall cur) as (p1 & -> & _).
      { apply elem_of_cons. right. by eapply list_elem_of_lookup_2. }
      by exists p0, p1. }
    rewrite (Hlook i p0 p1 H0 H1) in Hz. by injection Hz as <-. }
  rewrite filter_cons, decide_False by done.
  rewrite filter_all.
  2:{ apply Forall_lookup. intros i [t z] Hi.
      apply lookup_zip_Some in Hi as [_ Hi]. simpl.
      rewrite Forall_lookup in Hfin. by eapply Hfin. }
  split; [apply fst_zip; rewrite labels_length; lia|].
  split; [rewrite length_zip, labels_length; simpl; lia|].
  intros i p0 p1 H0 H1. exists (p1 / p0 - 1).
  rewrite snd_zip by (rewrite labels_length; lia).
  split; [by apply Hlook|].
  assert (p0 ≠ 0) as Hp0.
  { rewrite Forall_forall in Hall.
    destruct (Hall (Some p0)) as (q & [= <-] & Hq); [|done].
    by eapply list_elem_of_lookup_2. }
  replace (1 + (p1 / p0 - 1)) with (p1 / p0) by ring.
  by rewrite Qcmult_div_r.
Qed.

Lemma returns_link_prices_witness :
  length (compute_returns id flat_A) = 1%nat.
Proof.
  refine (proj1 (proj2 (returns_link_prices id flat_A _ _))).
  - done.
  - repeat constructor; eexists; (split; [reflexivity|]);
      intros H; apply (f_equal this) in H; discriminate H.
Defined.

End AnalyticsExtraTheorems.
(* ===================================================================== *)
(** * The volume profile *)
(* ===================================================================== *)

Section VolumeProfile.
Import Analytics.
Local Open Scope Qc_scope.

Lemma qle_bool_true (a b : Qc) : Qle_bool a b = true ↔ a ≤ b.
Proof. apply Qle_bool_iff. Qed.

Lemma qle_bool_false (a b : Qc) : Qle_bool a b = false ↔ b < a.
Proof.
  rewrite <- not_true_iff_false, qle_bool_true. split.
  - apply Qcnot_le_lt.
  - apply Qclt_not_le.
Qed.

Lemma qc_min_list_spec (x : Qc) (l : list Qc) :
  qc_min_list x l ∈ x :: l ∧ ∀ y, y ∈ x :: l → qc_min_list x l ≤ y.
Proof.
  unfold qc_min_list. revert x. induction l as [|z l IH]; intros x.
  - simpl. split; [by left|]. intros y Hy. apply list_elem_of_singleton in Hy as ->.
    apply Qcle_refl.
  - simpl. destruct (Qle_bool x z) eqn:Hxz.
    + apply qle_bool_true in Hxz. destruct (IH x) as [Hin Hle]. split.
      * apply elem_of_cons in Hin as [->|Hin]; [by left|]. by do 2 right.
      * intros y Hy. apply elem_of_cons in Hy as [->|Hy]; [apply Hle; by left|].
        apply elem_of_cons in Hy as [->|Hy].
        -- eapply Qcle_trans; [|exact Hxz]. apply Hle. by left.
        -- apply Hle. by right.
    + apply qle_bool_false in Hxz. destruct (IH z) as [Hin Hle]. split.
      * by right.
      * intros y Hy. apply elem_of_cons in Hy as [->|Hy]; [|by apply Hle].
        eapply Qcle_trans; [apply Hle; by left|]. by apply Qclt_le_weak.
Qed.

Lemma qc_max_list_spec (x : Qc) (l : list Qc) :
  qc_max_list x l ∈ x :: l ∧ ∀ y, y ∈ x :: l → y ≤ qc_max_list x l.
Proof.
  unfold qc_max_list. revert x. induction l as [|z l IH]; intros x.
  - simpl. split; [by left|]. intros y Hy. apply list_elem_of_singleton in Hy as ->.
    apply Qcle_refl.
  - simpl. destruct (Qle_bool x z) eqn:Hxz.
    + apply qle_bool_true in Hxz. destruct (IH z) as [Hin Hle]. split.
      * by right.
      * intros y Hy. apply elem_of_cons in Hy as [->|Hy]; [|by apply Hle].
        eapply Qcle_trans; [exact Hxz|]. apply Hle. by left.
    + apply qle_bool_false in Hxz. destruct (IH x) as [Hin Hle]. split.
      * apply elem_of_cons in Hin as [->|Hin]; [by left|]. by do 2 right.
      * intros y Hy. apply elem_of_cons in Hy as [->|Hy]; [apply Hle; by left|].
        apply elem_of_cons in Hy as [->|Hy].
        -- eapply Qcle_trans; [apply Qclt_le_weak, Hxz|]. apply Hle. by left.
        -- apply Hle. by right.
Qed.

Lemma qc_of_nat_nonneg (n : nat) : 0 ≤ qc_of_nat n.
Proof.
  unfold qc_of_nat. rewrite <- Z2Qc_inj_0.
  apply (proj1 (Z2Qc_inj_le 0 (Z.of_nat n))). lia.
Qed.

Lemma qc_of_nat_le (m n : nat) : (m ≤ n)%nat → qc_of_nat m ≤ qc_of_nat n.
Proof.
  intros Hmn. unfold qc_of_nat.
  apply (proj1 (Z2Qc_inj_le (Z.of_nat m) (Z.of_nat n))). lia.
Qed.

Lemma qc_of_nat_lt (m n : nat) : (m < n)%nat → qc_of_nat m < qc_of_nat n.
Proof.
  intros Hmn. unfold qc_of_nat.
  apply (proj1 (Z2Qc_inj_lt (Z.of_nat m) (Z.of_nat n))). lia.
Qed.

Lemma qc_inv_nat_nonneg (n : nat) : 0 ≤ / qc_of_nat n.
Proof.
  destruct n as [|n].
  - replace (/ qc_of_nat 0) with 0 by (by apply Qc_is_canon).
    apply Qcle_refl.
  - apply Qclt_le_weak, Qcinv_pos, qc_of_nat_pos. lia.
Qed.

Lemma step_nonneg (lo hi : Qc) (num : nat) :
  lo ≤ hi → 0 ≤ (hi - lo) / qc_of_nat num.
Proof.
  intros Hle. unfold Qcdiv. apply Qcmult_nonneg_nonneg.
  - by apply (proj1 (Qcle_minus_iff lo hi)).
  - apply qc_inv_nat_nonneg.
Qed.

Lemma step_pos (lo hi : Qc) (num : nat) :
  lo < hi → (1 ≤ num)%nat → 0 < (hi - lo) / qc_of_nat num.
Proof.
  intros Hlt Hnum. unfold Qcdiv. apply Qcmult_pos_pos.
  - by apply (proj1 (Qclt_minus_iff lo hi)).
  - by apply Qcinv_pos, qc_of_nat_pos.
Qed.

Lemma linspace_at_mono (lo hi : Qc) (num k k' : nat) :
  lo ≤ hi → (k ≤ k')%nat →
  linspace_at lo hi num k ≤ linspace_at lo hi num k'.
Proof.
  intros Hle Hk. unfold linspace_at.
  apply Qcplus_le_mono_l, Qcmult_le_compat_r.
  - by apply qc_of_nat_le.
  - by apply step_nonneg.
Qed.

Lemma linspace_at_strict (lo hi : Qc) (num k k' : nat) :
  lo < hi → (1 ≤ num)%nat → (k < k')%nat →
  linspace_at lo hi num k < linspace_at lo hi num k'.
Proof.
  intros Hlt Hnum Hk. unfold linspace_at.
  apply Qcplus_lt_mono_l, Qcmult_lt_compat_r.
  - by apply step_pos.
  - by apply qc_of_nat_lt.
Qed.

Lemma linspace_at_first (lo hi : Qc) (num : nat) :
  linspace_at lo hi num 0 = lo.
Proof.
  unfold linspace_at.
  replace (qc_of_nat 0) with 0 by (by apply Qc_is_canon).
  by rewrite Qcmult_0_l, Qcplus_0_r.
Qed.

Lemma linspace_at_last (lo hi : Qc) (num : nat) :
  (1 ≤ num)%nat → linspace_at lo hi num num = hi.
Proof.
  intros Hnum. unfold linspace_at.
  pose proof (qc_of_nat_nonzero num Hnum) as Hnz.
  field. done.
Qed.

Lemma linspace_at_flat (p : Qc) (num k : nat) : linspace_at p p num k = p.
Proof.
  unfold linspace_at, Qcdiv, Qcminus. rewrite Qcplus_opp_r, Qcmult_0_l, Qcmult_0_r.
  apply Qcplus_0_r.
Qed.

Lemma count_prefix (P : nat → Prop) `{∀ k, Decision (P k)} (n : nat) :
  (∀ k, P (S k) → P k) →
  let d := length (filter P (seq 0 n)) in
  (d ≤ n)%nat ∧ (∀ k, (k < d)%nat → P k) ∧ ((d < n)%nat → ¬ P d).
Proof.
  intros Hanti.
  assert (∀ k k', (k ≤ k')%nat → P k' → P k) as Hdown.
  { intros k k' Hk. induction Hk as [|k' _ IH]; [done|]. intros HP.
    by apply IH, Hanti. }
  induction n as [|n (Hle & Hbelow & Hat)]; [simpl; repeat split; intros; lia|].
  rewrite seq_S, filter_app, length_app. simpl.
  destruct (decide (P n)) as [HP|HP].
  - rewrite filter_cons_True, filter_nil by done. simpl.
    assert (length (filter P (seq 0 n)) = n) as ->.
    { destruct (decide (length (filter P (seq 0 n)) < n)%nat) as [Hlt|]; [|lia].
      destruct (Hat Hlt). apply (Hdown _ n); [lia|done]. }
    split; [lia|]. split; [|lia]. intros k Hk. apply (Hdown _ n); [lia|done].
  - rewrite filter_cons_False, filter_nil by done. simpl. rewrite Nat.add_0_r.
    split; [lia|]. split; [done|]. intros Hlt.
    destruct (decide (length (filter P (seq 0 n)) = n)) as [->|]; [done|].
    apply Hat. lia.
Qed.

Lemma digitize_spec (lo hi : Qc) (num : nat) (x : Qc) :
  lo ≤ hi →
  let d := digitize lo hi num x in
  (d ≤ num)%nat ∧ (∀ k, (k < d)%nat → linspace_at lo hi num k ≤ x)
  ∧ ((d < num)%nat → x < linspace_at lo hi num d).
Proof.
  intros Hle.
  destruct (count_prefix
              (λ k, Qle_bool (linspace_at lo hi num k) x = true) num)
    as (Hd & Hbelow & Hat).
  { intros k Hk. apply qle_bool_true. apply qle_bool_true in Hk.
    eapply Qcle_trans; [|exact Hk]. apply linspace_at_mono; [done|lia]. }
  split; [exact Hd|]. split.
  - intros k Hk. by apply qle_bool_true, Hbelow.
  - intros Hlt. apply qle_bool_false, not_true_iff_false, Hat, Hlt.
Qed.

Lemma digitize_top (lo hi : Qc) (num : nat) (x : Qc) :
  lo ≤ hi → hi ≤ x → digitize lo hi num x = num.
Proof.
  intros Hle Hx. destruct (digitize_spec lo hi num x Hle) as (Hd & _ & Hat).
  destruct (decide (digitize lo hi num x < num)%nat) as [Hlt|]; [|lia].
  destruct (Qclt_not_le _ _ (Hat Hlt)).
  eapply Qcle_trans; [|exact Hx].
  pose proof (linspace_at_mono lo hi num (digitize lo hi num x) num Hle Hd)
    as Hm.
  by rewrite linspace_at_last in Hm by lia.
Qed.

Lemma digitize_pos (lo hi : Qc) (num : nat) (x : Qc) :
  lo ≤ hi → lo ≤ x → (1 ≤ num)%nat → (1 ≤ digitize lo hi num x)%nat.
Proof.
  intros Hle Hx Hnum. destruct (digitize_spec lo hi num x Hle) as (_ & _ & Hat).
  destruct (decide (digitize lo hi num x = 0)%nat) as [H0|]; [|lia].
  rewrite H0 in Hat. rewrite linspace_at_first in Hat.
  destruct (Qclt_not_le _ _ (Hat Hnum)). done.
Qed.

Lemma align_nonempty (s1 s2 : Series (option Qc)) :
  align s1 s2 ≠ [] → (length s1 ≠ 0 ∧ length s2 ≠ 0)%nat.
Proof.
  intros Hne. split.
  - destruct s1; [done|]. simpl. lia.
  - destruct s2; [|simpl; lia]. destruct Hne. unfold align.
    induction s1 as [|[t [v|]] s1 IH]; simpl; [done| |]; by rewrite ?IH.
Qed.

Lemma compute_volume_profile_rows (prices volumes : Series (option Qc))
    (bins : nat) (p0 v0 : Qc) (rest : list (Qc * Qc)) :
  (align prices volumes).*2 = (p0, v0) :: rest →
  let lo := qc_min_list p0 (rest.*1) in
  let hi := qc_max_list p0 (rest.*1) in
  let groups := volume_groups lo hi bins ((p0, v0) :: rest) in
  compute_volume_profile prices volumes bins =
    match idxmax groups with
    | Some i =>
        if decide (i < bins)%nat
        then Profile ((λ g, bin_center lo hi bins g.1)
                        <$> filter (λ g, (g.1 < bins)%nat) groups)
               (groups.*2) (bin_center lo hi bins i)
        else ProfileIndexError
    | None => ProfileIndexError
    end.
Proof.
  intros Hrows. unfold compute_volume_profile.
  destruct (align_nonempty prices volumes) as [H1 H2].
  { intros Hnil. by rewrite Hnil in Hrows. }
  rewrite decide_False by lia. by rewrite Hrows.
Qed.

Lemma compute_volume_profile_rows_inv (prices volumes : Series (option Qc))
    (bins : nat) (levels vols : list Qc) (poc : Qc) :
  compute_volume_profile prices volumes bins = Profile levels vols poc →
  ∃ p0 v0 rest, (align prices volumes).*2 = (p0, v0) :: rest.
Proof.
  unfold compute_volume_profile. case_decide; [done|].
  destruct ((align prices volumes).*2) as [|[p0 v0] rest]; [done|].
  intros _. by exists p0, v0, rest.
Qed.

Lemma volume_groups_split (lo hi : Qc) (num : nat) (rows : list (Qc * Qc)) :
  lo ≤ hi → (∃ r, r ∈ rows ∧ hi ≤ r.1) →
  ∃ below top,
    volume_groups lo hi num rows = below ++ [(num, top)]
    ∧ (∀ i s, (i, s) ∈ below →
         (i < num)%nat
         ∧ s = qc_sum ((filter (λ r, digitize lo hi num r.1 = i) rows).*2)
         ∧ ∃ r, r ∈ rows ∧ digitize lo hi num r.1 = i)
    ∧ (∀ r, r ∈ rows → (digitize lo hi num r.1 < num)%nat →
         ∃ s, (digitize lo hi num r.1, s) ∈ below).
Proof.
  intros Hle (rtop & Hin & Htop). unfold volume_groups.
  set (f := λ idx : nat,
         match filter (λ r : Qc * Qc, digitize lo hi num r.1 = idx) rows with
         | [] => None
         | g => Some (idx, qc_sum (g.*2))
         end).
  assert (∀ idx g, f idx = Some g →
            g = (idx, qc_sum ((filter (λ r, digitize lo hi num r.1 = idx)
                                 rows).*2))
            ∧ ∃ r, r ∈ rows ∧ digitize lo hi num r.1 = idx) as Hf.
  { intros idx g. unfold f.
    destruct (filter _ rows) as [|r l] eqn:Hfl; [done|].
    intros [= <-]. split; [done|]. exists r.
    assert (r ∈ filter (λ r : Qc * Qc, digitize lo hi num r.1 = idx) rows)
      as Hr by (rewrite Hfl; by left).
    apply list_elem_of_filter in Hr as [Hd Hr]. done. }
  assert (∀ r, r ∈ rows → ∃ s, f (digitize lo hi num r.1)
                               = Some (digitize lo hi num r.1, s)) as Hfr.
  { intros r Hr. unfold f.
    destruct (filter _ rows) as [|r' l] eqn:Hfl; [|by eexists].
    assert (r ∈ filter (λ r' : Qc * Qc,
                          digitize lo hi num r'.1 = digitize lo hi num r.1)
                  rows) as Hr' by by apply list_elem_of_filter.
    rewrite Hfl in Hr'. by apply elem_of_nil in Hr'. }
  rewrite seq_S, omap_app. simpl.
  destruct (Hfr rtop Hin) as [top Htopf].
  rewrite digitize_top in Htopf by done. rewrite Htopf.
  exists (omap f (seq 0 num)), top. split; [done|]. split.
  - intros i s Hi. apply list_elem_of_omap in Hi as (idx & Hidx & Hfi).
    apply Hf in Hfi as [[= -> ->] Hrow].
    split; [|done]. apply elem_of_seq in Hidx. lia.
  - intros r Hr Hlt. destruct (Hfr r Hr) as [s Hs]. exists s.
    apply list_elem_of_omap. exists (digitize lo hi num r.1).
    split; [|done]. apply elem_of_seq. lia.
Qed.

Lemma idxmax_elem (groups : list (nat * Qc)) (i : nat) :
  idxmax groups = Some i → ∃ s, (i, s) ∈ groups.
Proof.
  unfold idxmax.
  assert (∀ acc b,
            foldl (λ (best : option (nat * Qc)) (g : nat * Qc),
                     match best with
                     | None => Some g
                     | Some b => if Qle_bool g.2 b.2 then best else Some g
                     end) acc groups = Some b →
            acc = Some b ∨ b ∈ groups) as Hfold.
  { induction groups as [|g groups IH]; intros acc b; simpl; [by left|].
    intros Hb. apply IH in Hb as [Hb|Hb]; [|by right; right].
    destruct acc as [a|].
    - destruct (Qle_bool g.2 a.2); [by left|].
      injection Hb as <-. right. by left.
    - injection Hb as <-. right. by left. }
  destruct (foldl _ None groups) as [[j s]|] eqn:Hbest; [|done].
  intros [= <-]. exists s. by destruct (Hfold _ _ Hbest).
Qed.

Lemma frame_bounds (p0 v0 : Qc) (rest : list (Qc * Qc)) :
  let rows := (p0, v0) :: rest in
  let lo := qc_min_list p0 (rest.*1) in
  let hi := qc_max_list p0 (rest.*1) in
  lo ∈ rows.*1 ∧ hi ∈ rows.*1 ∧ (∀ r, r ∈ rows → lo ≤ r.1 ∧ r.1 ≤ hi)
  ∧ lo ≤ hi.
Proof.
  intros rows lo hi.
  destruct (qc_min_list_spec p0 (rest.*1)) as [Hlo Hlo'].
  destruct (qc_max_list_spec p0 (rest.*1)) as [Hhi Hhi'].
  assert (∀ r, r ∈ rows → r.1 ∈ p0 :: rest.*1) as Hin.
  { intros r Hr. change (p0 :: rest.*1) with (rows.*1).
    apply list_elem_of_fmap. by exists r. }
  repeat split; [done|done|by apply Hlo', Hin|by apply Hhi', Hin|].
  eapply Qcle_trans; [apply Hlo'|apply Hhi']; by left.
Qed.

Lemma digitize_interval (lo hi : Qc) (num idx : nat) (x : Qc) :
  lo ≤ hi → (1 ≤ idx < num)%nat →
  digitize lo hi num x = idx
  ↔ linspace_at lo hi num (pred idx) ≤ x ∧ x < linspace_at lo hi num idx.
Proof.
  intros Hle Hidx.
  destruct (digitize_spec lo hi num x Hle) as (Hd & Hbelow & Hat). split.
  - intros <-. split; [apply Hbelow; lia|apply Hat; lia].
  - intros [H1 H2].
    destruct (decide (digitize lo hi num x < idx)%nat) as [Hlt|Hge].
    + destruct (Qclt_not_le _ _ (Hat ltac:(lia))).
      eapply Qcle_trans; [|exact H1]. apply linspace_at_mono; [done|lia].
    + destruct (decide (idx < digitize lo hi num x)%nat) as [Hgt|]; [|lia].
      destruct (Qclt_not_le _ _ H2). by apply Hbelow.
Qed.

Lemma volume_profile_outcome (prices volumes : Series (option Qc))
    (bins : nat) (levels vols : list Qc) (poc : Qc) :
  compute_volume_profile prices volumes bins = Profile levels vols poc →
  ∃ (lo hi : Qc) (below : list (nat * Qc)) (top : Qc) (i : nat),
    let rows := (align prices volumes).*2 in
    (lo ∈ rows.*1 ∧ hi ∈ rows.*1 ∧ (∀ r, r ∈ rows → lo ≤ r.1 ∧ r.1 ≤ hi)
     ∧ lo ≤ hi)
    ∧ volume_groups lo hi bins rows = below ++ [(bins, top)]
    ∧ (∀ i s, (i, s) ∈ below →
         (i < bins)%nat
         ∧ s = qc_sum ((filter (λ r, digitize lo hi bins r.1 = i) rows).*2)
         ∧ ∃ r, r ∈ rows ∧ digitize lo hi bins r.1 = i)
    ∧ idxmax (below ++ [(bins, top)]) = Some i ∧ (i < bins)%nat
    ∧ levels = (λ g, bin_center lo hi bins g.1) <$> below
    ∧ vols = below.*2 ++ [top]
    ∧ poc = bin_center lo hi bins i.
Proof.
  intros Hres.
  destruct (compute_volume_profile_rows_inv _ _ _ _ _ _ Hres)
    as (p0 & v0 & rest & Hrows).
  rewrite (compute_volume_profile_rows _ _ _ _ _ _ Hrows) in Hres.
  cbv zeta in Hres. rewrite Hrows. cbv zeta.
  destruct (frame_bounds p0 v0 rest) as (Hlo & Hhi & Hb & Hle).
  set (lo := qc_min_list p0 (rest.*1)) in *.
  set (hi := qc_max_list p0 (rest.*1)) in *.
  destruct (volume_groups_split lo hi bins ((p0, v0) :: rest) Hle)
    as (below & top & Hg & Hbelow & _).
  { apply list_elem_of_fmap in Hhi as (r & -> & Hr). exists r.
    split; [done|apply Qcle_refl]. }
  rewrite Hg in Hres.
  destruct (idxmax (below ++ [(bins, top)])) as [i|] eqn:Hi; [|done].
  case_decide as Hlt; [|done]. injection Hres as <- <- <-.
  exists lo, hi, below, top, i.
  split; [done|]. split; [done|]. split; [exact Hbelow|].
  split; [done|]. split; [done|]. split; [|by rewrite fmap_app].
  rewrite filter_app, filter_cons_False, filter_nil, app_nil_r
    by (simpl; lia).
  rewrite filter_all; [done|].
  apply Forall_forall. intros [j s] Hj. by apply Hbelow in Hj as [? _].
Qed.

Lemma qc_sum_app (l1 l2 : list Qc) :
  qc_sum (l1 ++ l2) = qc_sum l1 + qc_sum l2.
Proof.
  induction l1 as [|x l1 IH]; [by rewrite Qcplus_0_l|].
  change (x + qc_sum (l1 ++ l2) = x + qc_sum l1 + qc_sum l2).
  rewrite IH. ring.
Qed.

Lemma qc_sum_split_index (d : Qc * Qc → nat) (n : nat)
    (rows : list (Qc * Qc)) :
  qc_sum ((filter (λ r, d r < S n)%nat rows).*2)
  = qc_sum ((filter (λ r, d r < n)%nat rows).*2)
    + qc_sum ((filter (λ r, d r = n) rows).*2).
Proof.
  induction rows as [|r rows IH]; [by rewrite Qcplus_0_l|].
  rewrite !filter_cons.
  destruct (decide (d r < n)%nat), (decide (d r = n)); try lia.
  - rewrite decide_True by lia. rewrite !fmap_cons.
    change (r.2 + qc_sum ((filter (λ r, d r < S n)%nat rows).*2)
            = r.2 + qc_sum ((filter (λ r, d r < n)%nat rows).*2)
              + qc_sum ((filter (λ r, d r = n) rows).*2)).
    rewrite IH. ring.
  - rewrite decide_True by lia. rewrite !fmap_cons.
    change (r.2 + qc_sum ((filter (λ r, d r < S n)%nat rows).*2)
            = qc_sum ((filter (λ r, d r < n)%nat rows).*2)
              + (r.2 + qc_sum ((filter (λ r, d r = n) rows).*2))).
    rewrite IH. ring.
  - rewrite decide_False by lia. exact IH.
Qed.

Lemma volume_groups_sum (lo hi : Qc) (num : nat) (rows : list (Qc * Qc)) :
  lo ≤ hi → qc_sum ((volume_groups lo hi num rows).*2) = qc_sum (rows.*2).
Proof.
  intros Hle. unfold volume_groups.
  set (f := λ idx : nat,
         match filter (λ r : Qc * Qc, digitize lo hi num r.1 = idx) rows with
         | [] => None
         | g => Some (idx, qc_sum (g.*2))
         end).
  assert (∀ n, qc_sum ((omap f (seq 0 n)).*2)
               = qc_sum ((filter (λ r, digitize lo hi num r.1 < n)%nat
                            rows).*2)) as Hn.
  { induction n as [|n IH].
    - simpl. replace (filter _ rows) with (@nil (Qc * Qc)); [done|].
      symmetry. clear. induction rows as [|r rows IH]; [done|].
      by rewrite filter_cons, decide_False by lia.
    - rewrite seq_S, omap_app, fmap_app, qc_sum_app, IH.
      rewrite (qc_sum_split_index (λ r, digitize lo hi num r.1)).
      f_equal. clear IH. simpl. unfold f.
      destruct (filter _ rows) as [|r l]; [done|].
      simpl. by rewrite Qcplus_0_r. }
  rewrite Hn, filter_all; [done|].
  apply Forall_forall. intros r _.
  destruct (digitize_spec lo hi num r.1 Hle) as [Hd _]. lia.
Qed.

(** X18.  A volume profile that is returned has exactly one more volume than it
    has price levels (the group of the highest price has no level), and its
    point of control is one of the reported levels. *)
Theorem volume_profile_shape (prices volumes : Series (option Qc))
    (bins : nat) (levels vols : list Qc) (poc : Qc) :
  compute_volume_profile prices volumes bins = Profile levels vols poc →
  length vols = S (length levels) ∧ poc ∈ levels.
Proof.
  intros Hres.
  destruct (volume_profile_outcome _ _ _ _ _ _ Hres)
    as (lo & hi & below & top & i & _ & _ & _ & Hi & Hlt & -> & -> & ->).
  split.
  - rewrite length_app, !length_fmap. simpl. lia.
  - apply idxmax_elem in Hi as [s Hs].
    apply elem_of_app in Hs as [Hs|Hs].
    + apply list_elem_of_fmap. by exists (i, s).
    + apply list_elem_of_singleton in Hs as [= -> _]. lia.
Qed.

Lemma volume_profile_shape_witness :
  ∃ levels vols poc,
    compute_volume_profile traded_prices traded_volumes 4
    = Profile levels vols poc
    ∧ length vols = S (length levels) ∧ poc ∈ levels.
Proof.
  eexists _, _, _. split; [vm_compute; reflexivity|].
  apply (volume_profile_shape traded_prices traded_volumes 4).
  vm_compute. reflexivity.
Defined.

(** X19.  The volumes of a returned profile add up to the total volume of the
    aligned rows: grouping by bin loses none of it. *)
Theorem volume_profile_conserves_volume (prices volumes : Series (option Qc))
    (bins : nat) (levels vols : list Qc) (poc : Qc) :
  compute_volume_profile prices volumes bins = Profile levels vols poc →
  qc_sum vols = qc_sum ((λ r, r.2.2) <$> align prices volumes).
Proof.
  intros Hres.
  destruct (volume_profile_outcome _ _ _ _ _ _ Hres)
    as (lo & hi & below & top & i & (_ & _ & _ & Hle) & Hg & _ & _ & _ & _
        & -> & _).
  apply (f_equal (λ g, qc_sum (g.*2))) in Hg. simpl in Hg.
  rewrite volume_groups_sum in Hg by done.
  rewrite fmap_app in Hg. simpl in Hg. rewrite <- Hg.
  by rewrite <- list_fmap_compose.
Qed.

Lemma volume_profile_conserves_volume_witness :
  ∃ levels vols poc,
    compute_volume_profile traded_prices traded_volumes 4
    = Profile levels vols poc
    ∧ qc_sum vols = qc_sum ((λ r, r.2.2) <$> align traded_prices traded_volumes).
Proof.
  eexists _, _, _. split; [vm_compute; reflexivity|].
  eapply (volume_profile_conserves_volume traded_prices traded_volumes 4).
  vm_compute. reflexivity.
Defined.

(** X20.  When every aligned row carries the same price (a single trade, a flat
    market), all rows land in the group indexed [bins], past the last bin
    centre, and looking up the point of control raises IndexError. *)
Theorem volume_profile_one_price (prices volumes : Series (option Qc))
    (bins : nat) (p : Qc) :
  align prices volumes ≠ [] →
  Forall (λ r, r.2.1 = p) (align prices volumes) →
  compute_volume_profile prices volumes bins = ProfileIndexError.
Proof.
  intros Hne Hall.
  destruct ((align prices volumes).*2) as [|[p0 v0] rest] eqn:Hrows.
  { apply fmap_nil_inv in Hrows. done. }
  rewrite (compute_volume_profile_rows _ _ _ _ _ _ Hrows). cbv zeta.
  destruct (frame_bounds p0 v0 rest) as (Hlo & Hhi & Hb & Hle).
  set (lo := qc_min_list p0 (rest.*1)) in *.
  set (hi := qc_max_list p0 (rest.*1)) in *.
  assert (∀ r, r ∈ (p0, v0) :: rest → r.1 = p) as Hp.
  { intros r Hr. rewrite <- Hrows in Hr.
    apply list_elem_of_fmap in Hr as (tr & -> & Htr).
    rewrite Forall_forall in Hall. by apply Hall. }
  assert (hi = p) as Hhip.
  { apply list_elem_of_fmap in Hhi as (r & -> & Hr). by apply Hp. }
  destruct (volume_groups_split lo hi bins ((p0, v0) :: rest) Hle)
    as (below & top & -> & Hbelow & _).
  { exists (p0, v0). split; [by left|]. rewrite Hhip, (Hp (p0, v0)) by by left.
    apply Qcle_refl. }
  destruct below as [|[i s] below].
  - simpl. unfold idxmax. simpl. by rewrite decide_False by lia.
  - destruct (Hbelow i s) as (Hlt & _ & r & Hr & Hd); [by left|].
    rewrite digitize_top in Hd; [lia|done|].
    rewrite Hhip, (Hp r Hr). apply Qcle_refl.
Qed.

Lemma volume_profile_one_price_witness :
  compute_volume_profile flat_A flat_A 20 = ProfileIndexError.
Proof.
  apply (volume_profile_one_price flat_A flat_A 20 (Qc_of_Z 5)).
  - vm_compute. discriminate.
  - vm_compute. repeat constructor.
Defined.

Lemma bin_center_above_edge (lo hi : Qc) (num idx : nat) :
  lo < hi → (1 ≤ num)%nat →
  linspace_at lo hi num idx < bin_center lo hi num idx.
Proof.
  intros Hlt Hnum. unfold bin_center.
  pose proof (linspace_at_strict lo hi num idx (S idx) Hlt Hnum ltac:(lia))
    as Hs.
  set (a := linspace_at lo hi num idx) in *.
  set (b := linspace_at lo hi num (S idx)) in *.
  clearbody a b.
  replace (Qc_of_Z 2) with (1 + 1) by (by apply Qc_is_canon).
  apply (proj2 (Qclt_minus_iff _ _)).
  replace ((a + b) / (1 + 1) + - a) with ((b + - a) * / (1 + 1)).
  - apply Qcmult_pos_pos; [by apply (proj1 (Qclt_minus_iff a b))|].
    by apply Qcinv_pos.
  - field. intros H. apply (f_equal this) in H. discriminate H.
Qed.

(** X21.  The j-th volume of a returned profile is the volume traded at prices in
    [edge(idx-1), edge(idx)), while the j-th price level is the centre of
    the next bin [edge(idx), edge(idx+1)]: each level lies above every price
    whose volume is reported with it. *)
Theorem volume_profile_levels_shifted (prices volumes : Series (option Qc))
    (bins : nat) (levels vols : list Qc) (poc : Qc) :
  compute_volume_profile prices volumes bins = Profile levels vols poc →
  ∃ lo hi : Qc,
    let rows := (align prices volumes).*2 in
    lo ∈ rows.*1 ∧ hi ∈ rows.*1 ∧ Forall (λ r, lo ≤ r.1 ∧ r.1 ≤ hi) rows
    ∧ ∀ j c, levels !! j = Some c →
        ∃ idx, (1 ≤ idx < bins)%nat
          ∧ c = bin_center lo hi bins idx
          ∧ linspace_at lo hi bins idx < c
          ∧ let group :=
              filter (λ r, linspace_at lo hi bins (pred idx) ≤ r.1
                           ∧ r.1 < linspace_at lo hi bins idx) rows in
            group ≠ [] ∧ vols !! j = Some (qc_sum (group.*2)).
Proof.
  intros Hres.
  destruct (volume_profile_outcome _ _ _ _ _ _ Hres)
    as (lo & hi & below & top & i & (Hlo & Hhi & Hb & Hle) & _ & Hbelow
        & _ & _ & -> & -> & _).
  exists lo, hi. cbv zeta.
  split; [done|]. split; [done|]. split; [by apply Forall_forall|].
  intros j c Hj.
  apply list_lookup_fmap_Some in Hj as ([idx s] & -> & Hjb). simpl.
  destruct (Hbelow idx s) as (Hlt & -> & r & Hr & Hd);
    [by eapply list_elem_of_lookup_2|].
  assert (1 ≤ idx)%nat as Hpos.
  { rewrite <- Hd. apply digitize_pos; [done|by apply Hb|lia]. }
  assert (lo < hi) as Hlohi.
  { destruct (Qcle_lt_or_eq _ _ Hle) as [|Heq]; [done|].
    rewrite digitize_top in Hd; [lia|done|].
    rewrite <- Heq. by apply Hb. }
  exists idx. split; [lia|]. split; [done|].
  split; [apply bin_center_above_edge; [done|lia]|].
  rewrite <- (list_filter_iff
                (λ r : Qc * Qc, digitize lo hi bins r.1 = idx)
                (λ r : Qc * Qc, linspace_at lo hi bins (pred idx) ≤ r.1
                                ∧ r.1 < linspace_at lo hi bins idx)).
  2:{ intros x. apply digitize_interval; [done|lia]. }
  split.
  - intros Hnil.
    assert (r ∈ filter (λ r, digitize lo hi bins r.1 = idx)
                  (align prices volumes).*2) as Hin
      by by apply list_elem_of_filter.
    rewrite Hnil in Hin. by apply elem_of_nil in Hin.
  - rewrite lookup_app_l by (rewrite length_fmap; by eapply lookup_lt_Some).
    by rewrite list_lookup_fmap, Hjb.
Qed.

Lemma volume_profile_levels_shifted_witness :
  ∃ levels vols poc,
    compute_volume_profile traded_prices traded_volumes 4
    = Profile levels vols poc
    ∧ ∃ lo hi : Qc,
        let rows := (align traded_prices traded_volumes).*2 in
        lo ∈ rows.*1 ∧ hi ∈ rows.*1 ∧ Forall (λ r, lo ≤ r.1 ∧ r.1 ≤ hi) rows
        ∧ ∀ j c, levels !! j = Some c →
            ∃ idx, (1 ≤ idx < 4)%nat
              ∧ c = bin_center lo hi 4 idx
              ∧ linspace_at lo hi 4 idx < c
              ∧ let group :=
                  filter (λ r, linspace_at lo hi 4 (pred idx) ≤ r.1
                               ∧ r.1 < linspace_at lo hi 4 idx) rows in
                group ≠ [] ∧ vols !! j = Some (qc_sum (group.*2)).
Proof.
  eexists _, _, _. split; [vm_compute; reflexivity|].
  eapply (volume_profile_levels_shifted traded_prices traded_volumes 4).
  vm_compute. reflexivity.
Defined.

End VolumeProfile.
